(** * memories: thumbnail derivation and caching policy of [main.go]

    A shallow embedding of the handlers of [main.go] (index, thumbnail,
    upload) together with the helper functions they call, and the
    properties of the thumbnail key mapping, the listing filter and the
    generate-or-serve control flow.

    Go strings are byte sequences; they are embedded as [string] (a
    sequence of 8-bit [ascii]).  File contents ([[]byte]) are lists of
    [Byte.byte].  The object store is a finite map from object names to
    contents. *)

From Stdlib Require Import Ascii String List Bool Arith Lia ZArith.
From stdpp Require Import gmap strings list.

(** ** The parts of the Go standard library that [main.go] calls *)

(** [strings]: byte-level prefix and suffix tests. *)
Module GoStrings.

(** [s[:n]] and [s[n:]] for [n <= len(s)]. *)
Definition slice_to (s : string) (n : nat) : string := String.substring 0 n s.
Definition slice_from (s : string) (n : nat) : string :=
  String.substring n (String.length s - n) s.

(** [strings.HasPrefix]: [len(s) >= len(prefix) && s[:len(prefix)] == prefix]. *)
Definition HasPrefix (s prefix : string) : bool :=
  (String.length prefix <=? String.length s)
  && String.eqb (slice_to s (String.length prefix)) prefix.

(** [strings.HasSuffix]:
    [len(s) >= len(suffix) && s[len(s)-len(suffix):] == suffix]. *)
Definition HasSuffix (s suffix : string) : bool :=
  (String.length suffix <=? String.length s)
  && String.eqb (slice_from s (String.length s - String.length suffix)) suffix.

(** [strings.TrimPrefix]: [s] without the leading [prefix], or [s] itself. *)
Definition TrimPrefix (s prefix : string) : string :=
  if HasPrefix s prefix then slice_from s (String.length prefix) else s.

(** Lower-casing of one byte of the ASCII range. *)
Definition lower_ascii (c : ascii) : ascii :=
  let n := nat_of_ascii c in
  if (65 <=? n) && (n <=? 90) then ascii_of_nat (n + 32) else c.

(** [strings.ToLower] on names made of ASCII bytes: the letters A-Z are
    mapped to a-z.  Go maps the other runes through its Unicode tables,
    which are not embedded: the handlers take the case mapping from the
    [World] below, and this function is the instance used on concrete
    ASCII names. *)
Fixpoint ToLowerASCII (s : string) : string :=
  match s with
  | EmptyString => EmptyString
  | String c s' => String (lower_ascii c) (ToLowerASCII s')
  end.

End GoStrings.

(** [path]: slash-separated paths ([path.Ext], [path.Clean], [path.Join]).
    The functions work on the bytes of the path. *)
Module GoPath.

Definition slash : ascii := "/"%char.
Definition dot : ascii := "."%char.

Definition is_slash (c : ascii) : bool := Ascii.eqb c slash.
Definition is_dot (c : ascii) : bool := Ascii.eqb c dot.

(** [path.Ext]: walk back from the last byte while it is not a slash;
    at the first dot return the path from that dot on.  [rpath] is the
    part of the path not yet visited, last byte first; [acc] the bytes
    already walked over. *)
Fixpoint ext_back (rpath acc : list ascii) : list ascii :=
  match rpath with
  | [] => []
  | c :: rpath' =>
      if is_slash c then []
      else if is_dot c then c :: acc
      else ext_back rpath' (c :: acc)
  end.

Definition ext_bytes (p : list ascii) : list ascii := ext_back (rev p) [].

Definition Ext (p : string) : string :=
  string_of_list_ascii (ext_bytes (list_ascii_of_string p)).

(** The [..] case of [path.Clean]: [out.w--], then
    [for out.w > dotdot && out.index(out.w) != '/' { out.w-- }].
    The buffer is given last byte first; the byte read by
    [out.index(out.w)] is the one dropped last. *)
Fixpoint backtrack_rev (rout : list ascii) (dotdot : nat) : list ascii :=
  match rout with
  | [] => []
  | d :: rout' =>
      if (dotdot <? length rout') && negb (is_slash d)
      then backtrack_rev rout' dotdot
      else rout'
  end.

Definition backtrack (out : list ascii) (dotdot : nat) : list ascii :=
  rev (backtrack_rev (rev out) dotdot).

(** The bytes of the path element at the head of [rest], and what
    follows it: [for ; r < n && path[r] != '/'; r++]. *)
Fixpoint element (rest : list ascii) : list ascii * list ascii :=
  match rest with
  | [] => ([], [])
  | c :: rest' =>
      if is_slash c then ([], rest)
      else let '(e, tl) := element rest' in (c :: e, tl)
  end.

(** Does [rest] (the path from index [r+1] on) end the current element? *)
Definition at_end_or_slash (rest : list ascii) : bool :=
  match rest with
  | [] => true
  | c :: _ => is_slash c
  end.

(** The main loop of [path.Clean], [for r < n { switch ... }].  [rest]
    is [path[r:]], [out] the bytes written so far ([out.w] is its
    length), [dotdot] the index where [..] must stop.  Every iteration
    consumes at least one byte of [rest], so [length rest] iterations
    are enough; [fuel] bounds their number. *)
Fixpoint clean_loop (fuel : nat) (rooted : bool) (rest out : list ascii)
    (dotdot : nat) : list ascii :=
  match fuel with
  | O => out
  | S fuel' =>
      match rest with
      | [] => out
      | c :: rest1 =>
          if is_slash c then
            (* empty path element *)
            clean_loop fuel' rooted rest1 out dotdot
          else if is_dot c && at_end_or_slash rest1 then
            (* . element *)
            clean_loop fuel' rooted rest1 out dotdot
          else if is_dot c && is_dot (hd slash rest1)
                  && at_end_or_slash (tl rest1) then
            (* .. element: remove to last / *)
            let rest2 := tl rest1 in
            if dotdot <? length out then
              clean_loop fuel' rooted rest2 (backtrack out dotdot) dotdot
            else if negb rooted then
              let out1 := if 0 <? length out then out ++ [slash] else out in
              let out2 := out1 ++ [dot; dot] in
              clean_loop fuel' rooted rest2 out2 (length out2)
            else
              clean_loop fuel' rooted rest2 out dotdot
          else
            (* real path element: add slash if needed, copy element *)
            let out1 :=
              if (rooted && negb (length out =? 1))
                 || (negb rooted && negb (length out =? 0))
              then out ++ [slash] else out in
            let '(e, rest') := element rest in
            clean_loop fuel' rooted rest' (out1 ++ e) dotdot
      end
  end.

Definition clean_bytes (p : list ascii) : list ascii :=
  match p with
  | [] => [dot]
  | c :: p' =>
      let rooted := is_slash c in
      let out :=
        if rooted
        then clean_loop (length p') true p' [slash] 1
        else clean_loop (length p) false p [] 0 in
      match out with
      | [] => [dot]
      | _ => out
      end
  end.

(** [path.Clean]. *)
Definition Clean (p : string) : string :=
  string_of_list_ascii (clean_bytes (list_ascii_of_string p)).

(** The loop of [path.Join] that builds [buf]: the non-empty elements
    seen so far separated by slashes (an empty element is skipped only
    while [buf] is still empty). *)
Fixpoint join_buf (buf : string) (elem : list string) : string :=
  match elem with
  | [] => buf
  | e :: elem' =>
      if negb (String.length buf =? 0) || negb (String.eqb e "") then
        let buf1 := if negb (String.length buf =? 0) then buf +:+ "/" else buf in
        join_buf (buf1 +:+ e) elem'
      else join_buf buf elem'
  end.

(** [path.Join]: the empty string when all elements are empty, else the
    elements joined with slashes and cleaned. *)
Definition Join (elem : list string) : string :=
  let size := list_sum (map String.length elem) in
  if size =? 0 then "" else Clean (join_buf "" elem).

End GoPath.

(** ** Helper functions of [main.go] *)

(** [originalPath[:len(originalPath)-len(ext)]]. *)
Definition nameWithoutExt (originalPath : string) : string :=
  GoStrings.slice_to originalPath
    (String.length originalPath - String.length (GoPath.Ext originalPath)).

(** [getThumbPath] converts [folder/video.mp4] to [thumb/folder/video.jpg]. *)
Definition getThumbPath (originalPath : string) : string :=
  GoPath.Join ["thumb"; nameWithoutExt originalPath +:+ ".jpg"].

(** ** Collaborators

    Everything the handlers reach outside [main.go] and outside the byte
    level functions above is a field of [World]: the Unicode case mapping,
    the MIME table, the formatting of sizes and dates, the image codec
    ([imaging]), the transcoder ([ffmpeg]), and the outcome of the
    operations on temporary files and of the writes to the store. *)

Abbreviation bytes := (list Byte.byte).
Abbreviation Store := (gmap string bytes).

(** Go [error] values produced on the paths embedded here. *)
Inductive error : Type :=
  | ErrCreateTemp
  | ErrTranscoder
  | ErrReadFile
  | ErrEncode.

(** What becomes of the bytes given to a store writer: stored; refused
    with an error returned by [Write] (or [io.Copy]); or lost with the
    error returned only by [Close], which no handler looks at. *)
Inductive PutResult : Type := PutOk | PutWriteErr | PutCloseErr.

Record World : Type := {
  (** [strings.ToLower]. *)
  ToLower : string -> string;
  (** [mime.TypeByExtension]; the empty string when the extension is unknown. *)
  mimeTypeByExtension : string -> string;
  (** [humanReadableSize], which formats floating-point quotients. *)
  humanReadableSize : Z -> string;
  (** [UploadTimestamp.Format("02 Jan")]. *)
  formatDayMonth : Z -> string;
  (** The global [bktName]. *)
  bktName : string;
  (** Decoded raster images. *)
  Image : Type;
  (** [imaging.Decode]; [None] when it returns an error. *)
  Decode : bytes -> option Image;
  (** [imaging.Resize(img, 300, 0, imaging.Lanczos)]. *)
  Resize : Image -> Image;
  (** [imaging.Encode(buf, img, imaging.JPEG)]: the contents of [buf]
      afterwards and the error returned. *)
  Encode : Image -> bytes * option error;
  (** [os.CreateTemp("", pattern)] succeeds. *)
  createTemp : string -> bool;
  (** [io.Copy] into a temporary file succeeds on the local side. *)
  copyToTemp : bool;
  (** [os.ReadFile] of the frame written by the transcoder succeeds. *)
  readFile : bool;
  (** Running [ffmpeg] on a file with the given contents: the contents of
      the frame file it leaves, or [None] when it exits with an error. *)
  ffmpeg : bytes -> option bytes;
  (** Outcome of writing the object of the given name. *)
  put : string -> PutResult
}.

(** What a handler lets the outside see besides its response. *)
Inductive Event : Type :=
  | EvLog (msg : string)
  | EvDecode (data : bytes)
  | EvTranscode (video : bytes)
  | EvWrite (name : string) (data : bytes).

(** [filepath.Ext] on a host whose path separator is the slash. *)
Definition filepathExt (name : string) : string := GoPath.Ext name.

Section Helpers.
Variable w : World.

(** [hasSuffix]: does the lower-cased name end with one of the
    (lower-cased) suffixes? *)
Fixpoint hasSuffix_range (name : string) (suffixes : list string) : bool :=
  match suffixes with
  | [] => false
  | s :: suffixes' =>
      if GoStrings.HasSuffix name (ToLower w s) then true
      else hasSuffix_range name suffixes'
  end.

Definition hasSuffix (name : string) (suffixes : list string) : bool :=
  hasSuffix_range (ToLower w name) suffixes.

Definition detectContentType (name : string) : string :=
  let ext := filepathExt name in
  let ct := mimeTypeByExtension w ext in
  if negb (String.eqb ct "") then ct
  else if String.eqb ext ".mp4" then "video/mp4"
  else if String.eqb ext ".mov" then "video/quicktime"
  else if String.eqb ext ".webm" then "video/webm"
  else if String.eqb ext ".mkv" then "video/x-matroska"
  else "application/octet-stream".

(** [generateVideoThumbnail], given the contents of the file at
    [videoPath]: the two results of the Go function and the events. *)
Definition generateVideoThumbnail (video : bytes)
    : bytes * option error * list Event :=
  if negb (createTemp w "vid-thumb-*.jpg") then ([], Some ErrCreateTemp, [])
  else
    match ffmpeg w video with
    | None =>
        ([], Some ErrTranscoder, [EvTranscode video; EvLog "FFmpeg failed: "])
    | Some imgData =>
        if negb (readFile w) then ([], Some ErrReadFile, [EvTranscode video])
        else
          match Decode w imgData with
          | None => (imgData, None, [EvTranscode video; EvDecode imgData])
          | Some img =>
              let resized := Resize w img in
              let '(buf, err) := Encode w resized in
              (buf, err, [EvTranscode video; EvDecode imgData])
          end
    end.

End Helpers.

(** The extension lists written in the handlers. *)
Definition videoExts : list string := [".mp4"; ".mov"; ".mkv"; ".webm"].
Definition imageExts : list string := [".jpg"; ".jpeg"; ".png"; ".gif"; ".webp"].
Definition mediaExts : list string := imageExts ++ videoExts.

(** ** Responses *)

Record FileEntry : Type := {
  Name : string;
  Size : string;
  Time : string;
  ContentType : string;
  ThumbURL : string
}.

Inductive Response : Type :=
  | RespNotFound
  | RespError (msg : string) (code : nat)
  | RespRedirect (url : string) (code : nat)
  | RespBytes (header : list (string * string)) (body : bytes)
  | RespIndex (bucket : string) (files : list FileEntry)
  | RespUpload (bucket : string) (message : string).

(** The two headers set before a thumbnail is written out. *)
Definition jpegHeader : list (string * string) :=
  [("Content-Type", "image/jpeg"); ("Cache-Control", "public, max-age=604800")].

Record Outcome : Type := {
  resp : Response;
  store : Store;
  trace : list Event
}.

(** ** Index handler *)

Record Attrs : Type := { AttrSize : Z; UploadTimestamp : Z }.

(** An object yielded by the bucket iterator, with the result of its
    [Attrs] call ([None] when that call fails). *)
Record ListedObject : Type := { objName : string; objAttrs : option Attrs }.

Section Index.
Variable w : World.

Definition indexEntry (name : string) (attrs : Attrs) : FileEntry :=
  let isMedia := hasSuffix w name mediaExts in
  let thumbURL := if isMedia then "/thumb/" +:+ name else "/static/file-icon.png" in
  {| Name := name;
     Size := humanReadableSize w (AttrSize attrs);
     Time := formatDayMonth w (UploadTimestamp attrs);
     ContentType := detectContentType w name;
     ThumbURL := thumbURL |}.

(** The loop [for iter.Next()] and the entries it appends to [files]. *)
Fixpoint indexFiles (objs : list ListedObject) : list FileEntry :=
  match objs with
  | [] => []
  | obj :: objs' =>
      let name := objName obj in
      if GoStrings.HasPrefix name "thumb/" then indexFiles objs'
      else
        match objAttrs obj with
        | None => indexFiles objs'
        | Some attrs => indexEntry name attrs :: indexFiles objs'
        end
  end.

(** [iterErr] is [iter.Err()] after the loop, as the text of the
    error when there is one. *)
Definition indexHandler (objs : list ListedObject) (iterErr : option string)
    : Response :=
  let files := indexFiles objs in
  match iterErr with
  | Some msg => RespError msg 500
  | None => RespIndex (bktName w) files
  end.

End Index.

(** ** Thumbnail handler *)

Section Thumb.
Variable w : World.

(** [strings.TrimPrefix(r.URL.Path, "/thumb/")]. *)
Definition thumbOriginalName (urlPath : string) : string :=
  GoStrings.TrimPrefix urlPath "/thumb/".

(** [io.Copy(tmpOriginal, rc)]: the bytes of the original object, when
    it can be read and the temporary file written. *)
Definition download (st : Store) (name : string) : option bytes :=
  if copyToTemp w then st !! name else None.

(** The [if hasSuffix(...video...) { ... } else { ... }] block of the
    handler: either the response it returns early with, or [thumbData]. *)
Definition thumbGenerate (originalName : string) (orig : bytes)
    : (Response + bytes) * list Event :=
  if hasSuffix w originalName videoExts then
    let '(thumbData, err, tr) := generateVideoThumbnail w orig in
    match err with
    | Some _ =>
        (inl (RespRedirect "/static/file-icon.png" 302),
         tr ++ [EvLog "Video thumb failed:"])
    | None => (inr thumbData, tr)
    end
  else
    match Decode w orig with
    | None => (inl (RespError "decode failed" 500), [EvDecode orig])
    | Some srcImage =>
        let thumbImg := Resize w srcImage in
        (inr (fst (Encode w thumbImg)), [EvDecode orig])
    end.

(** [thumbWr.Write(thumbData)] with its error logged, then
    [thumbWr.Close()]. *)
Definition saveThumb (st : Store) (thumbB2Path : string) (thumbData : bytes)
    : Store * list Event :=
  match put w thumbB2Path with
  | PutOk => (<[thumbB2Path := thumbData]> st, [EvWrite thumbB2Path thumbData])
  | PutWriteErr =>
      (st, [EvWrite thumbB2Path thumbData; EvLog "Failed to save thumb:"])
  | PutCloseErr => (st, [EvWrite thumbB2Path thumbData])
  end.

(** [thumbHandler] on the store [st] for a request of path [urlPath].
    [thumbObj.Attrs] fails exactly when the store has no object of that
    name; [NewReader] never returns [nil]. *)
Definition thumbHandler (st : Store) (urlPath : string) : Outcome :=
  let originalName := thumbOriginalName urlPath in
  if String.eqb originalName "" then
    {| resp := RespNotFound; store := st; trace := [] |}
  else
    let thumbB2Path := getThumbPath originalName in
    match st !! thumbB2Path with
    | None =>
        (* generate missing thumbnail *)
        let tr0 :=
          [EvLog ("Generating missing thumbnail: " +:+ originalName
                  +:+ " -> " +:+ thumbB2Path)] in
        if negb (createTemp w ("orig-*" +:+ filepathExt originalName)) then
          {| resp := RespError "temp error" 500; store := st; trace := tr0 |}
        else
          match download st originalName with
          | None =>
              {| resp := RespError "download failed" 500; store := st;
                 trace := tr0 |}
          | Some orig =>
              match thumbGenerate originalName orig with
              | (inl r, tr) => {| resp := r; store := st; trace := tr0 ++ tr |}
              | (inr thumbData, tr) =>
                  let '(st', trw) := saveThumb st thumbB2Path thumbData in
                  {| resp := RespBytes jpegHeader thumbData; store := st';
                     trace := tr0 ++ tr ++ trw |}
              end
          end
    | Some cached =>
        (* serve existing thumbnail *)
        {| resp := RespBytes jpegHeader cached; store := st; trace := [] |}
    end.

End Thumb.

(** ** Upload handler *)

(** The parts of the request that the handler reads: the method, the
    form file (its [header.Filename] and contents; [None] when
    [r.FormFile] fails) and the two form values. *)
Record UploadRequest : Type := {
  Method : string;
  FormFile : option (string * bytes);
  folder : string;
  custom_name : string
}.

Section Upload.
Variable w : World.

(** Step 2 of the handler: folder and custom name. *)
Definition objectPathOf (filename fld custom : string) : string :=
  let customName := if String.eqb custom "" then filename else custom in
  if negb (String.eqb fld "") then GoPath.Join [fld; customName] else customName.

(** Step 5: the thumbnail bytes and [shouldGen]. *)
Definition uploadGenerate (objectPath : string) (content : bytes)
    : bytes * bool * list Event :=
  if hasSuffix w objectPath videoExts then
    let '(thumbData, genErr, tr) := generateVideoThumbnail w content in
    match genErr with
    | None => (thumbData, true, tr)
    | Some _ => (thumbData, false, tr)
    end
  else if hasSuffix w objectPath imageExts then
    match Decode w content with
    | Some srcImage =>
        let thumbImg := Resize w srcImage in
        (fst (Encode w thumbImg), true, [EvDecode content])
    | None => ([], false, [EvDecode content])
    end
  else ([], false, []).

Definition uploadMessage (objectPath : string) (size : Z) : string :=
  "✅ Uploaded " +:+ objectPath +:+ " (" +:+ humanReadableSize w size +:+ ")".

Definition uploadHandler (st : Store) (r : UploadRequest) : Outcome :=
  if String.eqb (Method r) "GET" then
    {| resp := RespUpload (bktName w) ""; store := st; trace := [] |}
  else
    match FormFile r with
    | None => {| resp := RespError "read error" 400; store := st; trace := [] |}
    | Some (filename, content) =>
        let objectPath := objectPathOf filename (folder r) (custom_name r) in
        if negb (createTemp w ("upload-*" +:+ filepathExt objectPath)) then
          {| resp := RespError "temp error" 500; store := st; trace := [] |}
        else if negb (copyToTemp w) then
          {| resp := RespError "copy error" 500; store := st; trace := [] |}
        else
          let size := Z.of_nat (length content) in
          let tr0 := [EvLog "SHA1:"; EvWrite objectPath content] in
          match put w objectPath with
          | PutWriteErr =>
              {| resp := RespError "upload failed" 500; store := st; trace := tr0 |}
          | pr =>
              let st1 :=
                match pr with PutOk => <[objectPath := content]> st | _ => st end in
              let '(thumbData, shouldGen, tr1) := uploadGenerate objectPath content in
              let '(st2, tr2) :=
                if shouldGen then
                  let thumbName := getThumbPath objectPath in
                  (match put w thumbName with
                   | PutOk => <[thumbName := thumbData]> st1
                   | _ => st1
                   end,
                   [EvWrite thumbName thumbData;
                    EvLog ("✅ Generated Thumbnail: " +:+ thumbName)])
                else (st1, []) in
              {| resp := RespUpload (bktName w) (uploadMessage objectPath size);
                 store := st2; trace := tr0 ++ tr1 ++ tr2 |}
          end
    end.

End Upload.

(** ** Names on which [path.Clean] changes nothing *)

(** The elements of a path: the runs of bytes between slashes. *)
Fixpoint segments (p : list ascii) : list (list ascii) :=
  match p with
  | [] => [[]]
  | c :: p' =>
      if GoPath.is_slash c then [] :: segments p'
      else
        match segments p' with
        | s :: ss => (c :: s) :: ss
        | [] => [[c]]
        end
  end.

(** A plain element is not empty, not [.] and not [..]. *)
Definition plain_segment (s : list ascii) : bool :=
  match s with
  | [] => false
  | [c] => negb (GoPath.is_dot c)
  | [c; d] => negb (GoPath.is_dot c && GoPath.is_dot d)
  | _ => true
  end.

Definition plain_path (p : list ascii) : bool := forallb plain_segment (segments p).

(** A plain name has only plain elements: no leading, trailing or doubled
    slash, and no [.] or [..] element. *)
Definition plainName (n : string) : bool := plain_path (list_ascii_of_string n).

Definition no_slash (e : list ascii) : bool :=
  forallb (fun c => negb (GoPath.is_slash c)) e.

(** [ss] with [e] appended to its last element. *)
Fixpoint app_last (ss : list (list ascii)) (e : list ascii) : list (list ascii) :=
  match ss with
  | [] => [e]
  | [s] => [s ++ e]
  | s :: ss' => s :: app_last ss' e
  end.

(** ** Predicates of the statements *)

(** An object is shown when its name is outside [thumb/] and its
    attributes could be fetched. *)
Definition shown (o : ListedObject) : bool :=
  negb (GoStrings.HasPrefix (objName o) "thumb/")
  && match objAttrs o with Some _ => true | None => false end.

(** Events of the image codec and of the transcoder. *)
Definition is_generation (ev : Event) : bool :=
  match ev with
  | EvDecode _ | EvTranscode _ => true
  | _ => false
  end.

(** ** A world for concrete runs

    ASCII case mapping, an empty MIME table, images that are their own
    bytes, an encoder that prefixes the JPEG start-of-image marker, and
    no failure on temporary files.  The decoder, the transcoder and the
    store writes are chosen by the run. *)
Definition asciiWorld (decode : bytes -> option bytes)
    (transcode : bytes -> option bytes) (putr : string -> PutResult) : World :=
  {| ToLower := GoStrings.ToLowerASCII;
     mimeTypeByExtension := fun _ => "";
     humanReadableSize := fun _ => "n B";
     formatDayMonth := fun _ => "01 Jan";
     bktName := "bucket";
     Image := bytes;
     Decode := decode;
     Resize := fun img => img;
     Encode := fun img => (Byte.xff :: Byte.xd8 :: img, None);
     createTemp := fun _ => true;
     copyToTemp := true;
     readFile := true;
     ffmpeg := transcode;
     put := putr |}.

Definition decodeAll : bytes -> option bytes := fun data => Some data.
Definition decodeNone : bytes -> option bytes := fun _ => None.
Definition transcodeNone : bytes -> option bytes := fun _ => None.
Definition putAlways (r : PutResult) : string -> PutResult := fun _ => r.

Definition pngBytes : bytes := [Byte.x89; Byte.x50; Byte.x4e; Byte.x47].
Definition junkBytes : bytes := [Byte.x00; Byte.x01; Byte.x02].

Definition someAttrs : Attrs := {| AttrSize := 2048; UploadTimestamp := 0 |}.

(** The bucket of the listing example: an image, its thumbnail, a video. *)
Definition bucket3 : list ListedObject :=
  [ {| objName := "a.jpg"; objAttrs := Some someAttrs |};
    {| objName := "thumb/a.jpg"; objAttrs := Some someAttrs |};
    {| objName := "b.mp4"; objAttrs := Some someAttrs |} ].

(** The worlds of the runs below. *)
Definition worldOk : World := asciiWorld decodeAll transcodeNone (putAlways PutOk).
Definition worldNoDecode : World := asciiWorld decodeNone transcodeNone (putAlways PutOk).
Definition worldWriteErr : World :=
  asciiWorld decodeAll transcodeNone (putAlways PutWriteErr).
Definition worldRawFrame : World :=
  asciiWorld decodeNone (fun _ => Some junkBytes) (putAlways PutOk).

(** The stores of the runs below, and the thumbnail that [worldOk]
    generates from [pngBytes]. *)
Definition storePhoto : Store := {["photos/x.png" := pngBytes]}.
Definition storeJunkPhoto : Store := {["photos/x.png" := junkBytes]}.
Definition storeClip : Store := {["clips/y.mp4" := junkBytes]}.
Definition storeNotes : Store := {["notes.txt" := pngBytes]}.
Definition storeThumbOnly : Store := {["thumb/a.jpg" := pngBytes]}.
Definition pngThumb : bytes := Byte.xff :: Byte.xd8 :: pngBytes.

(** The upload of [q.jpg] into the folder [reports]. *)
Definition uploadReport : UploadRequest :=
  {| Method := "POST"; FormFile := Some ("q.jpg", pngBytes);
     folder := "reports"; custom_name := "" |}.

(** ** Viewer and download handlers *)

(** [filepath.Base] on a host whose separator is the slash.  The path is
    walked from its last byte: the trailing slashes are dropped, then the
    bytes up to the next slash are kept. *)
Fixpoint base_strip (rpath : list ascii) : list ascii :=
  match rpath with
  | [] => []
  | c :: rpath' => if GoPath.is_slash c then base_strip rpath' else rpath
  end.

Fixpoint base_last (rpath acc : list ascii) : list ascii :=
  match rpath with
  | [] => acc
  | c :: rpath' => if GoPath.is_slash c then acc else base_last rpath' (c :: acc)
  end.

Definition base_bytes (p : list ascii) : list ascii :=
  match p with
  | [] => [GoPath.dot]
  | _ =>
      match base_last (base_strip (rev p)) [] with
      | [] => [GoPath.slash]
      | e => e
      end
  end.

Definition filepathBase (name : string) : string :=
  string_of_list_ascii (base_bytes (list_ascii_of_string name)).

(** The data given to the template [view.html]. *)
Record ViewData : Type := {
  FileName : string;
  FileSize : string;
  ViewContentType : string;
  IsImage : bool;
  IsVideo : bool;
  IsPDF : bool
}.

Section Viewer.
Variable w : World.

(** [viewerHandler]: the template data and the events.  [obj.Attrs]
    fails exactly when the store has no object of that name; the size
    attribute of an object is the number of its bytes. *)
Definition viewerHandler (st : Store) (urlPath : string) : ViewData * list Event :=
  let name := GoStrings.TrimPrefix urlPath "/viewer/" in
  let attrs := st !! name in
  let tr := match attrs with
            | None => [EvLog "Error getting attrs:"]
            | Some _ => []
            end in
  let size := match attrs with
              | Some data => humanReadableSize w (Z.of_nat (length data))
              | None => "Unknown size"
              end in
  ({| FileName := name;
      FileSize := size;
      ViewContentType := detectContentType w name;
      IsImage := hasSuffix w name imageExts;
      IsVideo := hasSuffix w name videoExts;
      IsPDF := hasSuffix w name [".pdf"] |}, tr).

End Viewer.

(** [downloadHandler]: the header set and the bytes copied from the
    reader.  Reading an object that is not in the store fails at once,
    and the error of [io.Copy] is not looked at: nothing is copied. *)
Definition downloadHandler (st : Store) (urlPath : string) : Response :=
  let name := GoStrings.TrimPrefix urlPath "/download/" in
  RespBytes [("Content-Disposition", "attachment; filename=" +:+ filepathBase name)]
    (default [] (st !! name)).

(** ** Further predicates and inputs *)

(** The last element of a path. *)
Definition last_segment (p : list ascii) : list ascii := List.last (segments p) [].

(** A world whose encoder fails, and one whose transcoder yields a frame
    that decodes. *)
Definition worldEncodeErr : World :=
  {| ToLower := GoStrings.ToLowerASCII;
     mimeTypeByExtension := fun _ => "";
     humanReadableSize := fun _ => "n B";
     formatDayMonth := fun _ => "01 Jan";
     bktName := "bucket";
     Image := bytes;
     Decode := decodeAll;
     Resize := fun img => img;
     Encode := fun img => (junkBytes, Some ErrEncode);
     createTemp := fun _ => true;
     copyToTemp := true;
     readFile := true;
     ffmpeg := fun _ => Some pngBytes;
     put := putAlways PutOk |}.

Definition worldVideoOk : World :=
  asciiWorld decodeAll (fun _ => Some pngBytes) (putAlways PutOk).

(** A store with two objects, and uploads of a text file and of a file
    with no name. *)
Definition storeTwo : Store := <["docs/readme.txt" := junkBytes]> storePhoto.

Definition uploadNotes : UploadRequest :=
  {| Method := "POST"; FormFile := Some ("notes.txt", junkBytes);
     folder := ""; custom_name := "" |}.

Definition uploadNoFile : UploadRequest :=
  {| Method := "POST"; FormFile := None; folder := ""; custom_name := "" |}.

(** ** What generation yields *)

(** The thumbnail bytes that the collaborators yield for the bytes of an
    original: for a video, the first result of [generateVideoThumbnail]
    when its error is nil; otherwise the encoder's buffer for the resized
    image when the bytes decode.  [None] when generation fails. *)
Definition generatedThumb (w : World) (isVideo : bool) (data : bytes) : option bytes :=
  if isVideo then
    match generateVideoThumbnail w data with
    | (thumbData, None, _) => Some thumbData
    | (_, Some _, _) => None
    end
  else
    match Decode w data with
    | Some img => Some (fst (Encode w (Resize w img)))
    | None => None
    end.

(** A world whose store loses what is written and reports it only when
    the writer is closed. *)
Definition worldCloseErr : World :=
  asciiWorld decodeAll transcodeNone (putAlways PutCloseErr).

(** The upload of [q.jpg] into [reports] with bytes that do not decode. *)
Definition uploadJunkReport : UploadRequest :=
  {| Method := "POST"; FormFile := Some ("q.jpg", junkBytes);
     folder := "reports"; custom_name := "" |}.

(** * Properties *)

(** ** Bytes and strings *)

Section StringFacts.

Lemma list_ascii_app (a b : string) :
  list_ascii_of_string (a +:+ b)
  = list_ascii_of_string a ++ list_ascii_of_string b.
Proof. induction a as [|c a IH]; simpl; [reflexivity | now rewrite IH]. Qed.

Lemma list_ascii_length (s : string) :
  length (list_ascii_of_string s) = String.length s.
Proof. induction s as [|c s IH]; simpl; [reflexivity | now rewrite IH]. Qed.

Lemma string_of_list_length (l : list ascii) :
  String.length (string_of_list_ascii l) = length l.
Proof. induction l as [|c l IH]; simpl; [reflexivity | now rewrite IH]. Qed.

Lemma list_ascii_slice_to (s : string) (k : nat) :
  list_ascii_of_string (GoStrings.slice_to s k) = take k (list_ascii_of_string s).
Proof.
  unfold GoStrings.slice_to. revert k.
  induction s as [|c s IH]; intros [|k]; simpl; try reflexivity.
  now rewrite IH.
Qed.

Lemma substring_all (s : string) : String.substring 0 (String.length s) s = s.
Proof. induction s as [|c s IH]; simpl; [reflexivity | now rewrite IH]. Qed.

Lemma substring_skip (a b : string) (k : nat) :
  String.substring (String.length a) k (a +:+ b) = String.substring 0 k b.
Proof. induction a as [|c a IH]; simpl; [reflexivity | exact IH]. Qed.

Lemma substring_prefix (a b : string) :
  String.substring 0 (String.length a) (a +:+ b) = a.
Proof. induction a as [|c a IH]; simpl; [now destruct b | now rewrite IH]. Qed.

Lemma length_append (a b : string) :
  String.length (a +:+ b) = String.length a + String.length b.
Proof. induction a as [|c a IH]; simpl; [reflexivity | now rewrite IH]. Qed.

(** [HasPrefix] holds on a string that is built from the prefix. *)
Lemma HasPrefix_app (a b : string) : GoStrings.HasPrefix (a +:+ b) a = true.
Proof.
  unfold GoStrings.HasPrefix, GoStrings.slice_to.
  rewrite substring_prefix, String.eqb_refl, length_append.
  rewrite andb_true_r. apply Nat.leb_le. lia.
Qed.

(** Trimming a prefix that was just put in front gives the rest back. *)
Lemma TrimPrefix_app (a b : string) : GoStrings.TrimPrefix (a +:+ b) a = b.
Proof.
  unfold GoStrings.TrimPrefix. rewrite HasPrefix_app.
  unfold GoStrings.slice_from. rewrite length_append.
  replace (String.length a + String.length b - String.length a)
    with (String.length b) by lia.
  rewrite substring_skip. apply substring_all.
Qed.

End StringFacts.

(** ** [path.Ext], [path.Clean] and [path.Join] *)

Section PathFacts.
Import GoPath.

Lemma is_slash_eq (c : ascii) : is_slash c = true -> c = slash.
Proof. apply Ascii.eqb_eq. Qed.

Lemma is_dot_not_slash (c : ascii) : is_dot c = true -> is_slash c = false.
Proof. intros H. apply Ascii.eqb_eq in H. now subst c. Qed.

(** The extension is a slash-free tail of the path. *)
Lemma ext_back_spec (r acc : list ascii) :
  no_slash acc = true ->
  no_slash (ext_back r acc) = true
  /\ exists stem, rev r ++ acc = stem ++ ext_back r acc.
Proof.
  revert acc. induction r as [|c r IH]; intros acc Hacc; simpl.
  - split; [reflexivity | exists acc; now rewrite app_nil_r].
  - destruct (is_slash c) eqn:Hs.
    + split; [reflexivity | eexists; now rewrite app_nil_r].
    + destruct (is_dot c) eqn:Hd.
      * split; [simpl; now rewrite Hs |].
        exists (rev r). now rewrite <- app_assoc.
      * destruct (IH (c :: acc)) as [H1 [stem H2]]; [simpl; now rewrite Hs |].
        split; [exact H1 |]. exists stem. now rewrite <- app_assoc.
Qed.

Lemma ext_bytes_spec (p : list ascii) :
  no_slash (ext_bytes p) = true /\ exists stem, p = stem ++ ext_bytes p.
Proof.
  destruct (ext_back_spec (rev p) [] eq_refl) as [H1 [stem H2]].
  split; [exact H1 |]. exists stem.
  rewrite app_nil_r, rev_involutive in H2. exact H2.
Qed.

(** [nameWithoutExt] followed by the extension is the name. *)
Lemma nameWithoutExt_bytes (n : string) :
  list_ascii_of_string n
  = list_ascii_of_string (nameWithoutExt n) ++ ext_bytes (list_ascii_of_string n).
Proof.
  unfold nameWithoutExt, Ext. rewrite list_ascii_slice_to.
  rewrite string_of_list_length, <- list_ascii_length.
  destruct (ext_bytes_spec (list_ascii_of_string n)) as [_ [stem H]].
  set (e := ext_bytes (list_ascii_of_string n)) in *.
  rewrite H at 2 3. rewrite length_app.
  replace (length stem + length e - length e) with (length stem) by lia.
  now rewrite take_app_length.
Qed.

Lemma segments_not_nil (p : list ascii) : segments p <> [].
Proof.
  destruct p as [|c p]; simpl; [discriminate |].
  destruct (is_slash c); [discriminate |].
  destruct (segments p); discriminate.
Qed.

(** Appending slash-free bytes extends the last element. *)
Lemma segments_app_no_slash (a e : list ascii) :
  no_slash e = true -> segments (a ++ e) = app_last (segments a) e.
Proof.
  intros He. induction a as [|c a IH]; simpl.
  - induction e as [|d e IHe]; simpl; [reflexivity |].
    simpl in He. apply andb_true_iff in He as [Hd He].
    apply negb_true_iff in Hd. rewrite Hd, (IHe He). reflexivity.
  - pose proof (segments_not_nil a) as Hne.
    destruct (is_slash c).
    + rewrite IH. destruct (segments a); [contradiction | reflexivity].
    + rewrite IH. destruct (segments a) as [|s [|s' ss]];
        [contradiction | reflexivity | reflexivity].
Qed.

(** Replacing what was appended to the last element by something that
    makes any element plain keeps all elements plain. *)
Lemma plain_app_last (ss : list (list ascii)) (e1 e2 : list ascii) :
  (forall s, plain_segment (s ++ e2) = true) ->
  forallb plain_segment (app_last ss e1) = true ->
  forallb plain_segment (app_last ss e2) = true.
Proof.
  intros He2. induction ss as [|s ss IH]; intros H.
  - simpl. pose proof (He2 []) as H0. simpl in H0. now rewrite H0.
  - destruct ss as [|s' ss].
    + simpl. now rewrite He2.
    + change (app_last (s :: s' :: ss) e1) with (s :: app_last (s' :: ss) e1) in H.
      change (app_last (s :: s' :: ss) e2) with (s :: app_last (s' :: ss) e2).
      simpl forallb in *. apply andb_true_iff in H as [Hs H].
      rewrite Hs. simpl. apply IH, H.
Qed.

Lemma plain_segment_jpg (s : list ascii) :
  plain_segment (s ++ list_ascii_of_string ".jpg") = true.
Proof. destruct s as [|a [|b [|c s]]]; reflexivity. Qed.

(** The element at the head of a path is the first of its segments. *)
Lemma element_spec (p : list ascii) :
  forall e rest, element p = (e, rest) ->
  segments p = e :: match rest with [] => [] | _ :: p' => segments p' end
  /\ (rest = [] \/ exists p', rest = slash :: p')
  /\ length p = length e + length rest.
Proof.
  induction p as [|c p IH]; intros e rest H; simpl in H.
  - injection H as <- <-. repeat split; auto.
  - simpl. destruct (is_slash c) eqn:Hs.
    + injection H as <- <-. apply is_slash_eq in Hs. subst c.
      repeat split; eauto.
    + destruct (element p) as [e' rest'] eqn:Hel. injection H as <- <-.
      destruct (IH _ _ eq_refl) as (Hseg & Hrest & Hlen).
      rewrite Hseg. repeat split; auto. simpl. lia.
Qed.

Lemma element_app (p : list ascii) :
  forall e rest, element p = (e, rest) -> p = e ++ rest.
Proof.
  induction p as [|c p IH]; intros e rest H; simpl in H.
  - now injection H as <- <-.
  - destruct (is_slash c).
    + now injection H as <- <-.
    + destruct (element p) as [e' rest'] eqn:Hel. injection H as <- <-.
      simpl. now rewrite <- (IH e' rest' eq_refl).
Qed.

(** One iteration of the loop of [Clean] on a plain element copies it. *)
Lemma clean_loop_plain_element (fuel : nat) (p out : list ascii) (dotdot : nat) :
  forall e rest, element p = (e, rest) -> plain_segment e = true ->
  clean_loop (S fuel) false p out dotdot
  = clean_loop fuel false rest
      ((if negb (length out =? 0) then out ++ [slash] else out) ++ e) dotdot.
Proof.
  intros e rest Hel Hpl.
  destruct p as [|c p1]; simpl in Hel.
  { injection Hel as <- <-. discriminate. }
  destruct (is_slash c) eqn:Hs.
  { injection Hel as <- <-. discriminate. }
  destruct (element p1) as [e1 r1] eqn:Hel1. injection Hel as <- <-.
  cbn [clean_loop]. rewrite Hs.
  assert (Hdot : is_dot c && at_end_or_slash p1 = false).
  { destruct (is_dot c) eqn:Hd; [simpl | reflexivity].
    destruct p1 as [|d p2]; simpl in *.
    - injection Hel1 as <- <-. simpl in Hpl. now rewrite Hd in Hpl.
    - destruct (is_slash d) eqn:Hsd; [| reflexivity].
      injection Hel1 as <- <-. simpl in Hpl. now rewrite Hd in Hpl. }
  rewrite Hdot.
  assert (Hdd : is_dot c && is_dot (hd slash p1) && at_end_or_slash (tl p1) = false).
  { destruct (is_dot c) eqn:Hd; [simpl | reflexivity].
    destruct p1 as [|d p2]; simpl; [reflexivity |].
    destruct (is_dot d) eqn:Hd2; [simpl | reflexivity].
    simpl in Hel1. rewrite (is_dot_not_slash d Hd2) in Hel1.
    destruct p2 as [|d3 p3]; simpl in *.
    - injection Hel1 as <- <-. simpl in Hpl. now rewrite Hd, Hd2 in Hpl.
    - destruct (is_slash d3) eqn:Hs3; [| reflexivity].
      injection Hel1 as <- <-. simpl in Hpl. now rewrite Hd, Hd2 in Hpl. }
  rewrite Hdd.
  cbn [element]. rewrite Hs, Hel1. reflexivity.
Qed.

(** The loop of [Clean] needs no more iterations than the bytes left
    to read: with that much fuel or more, the result is the same. *)
Lemma clean_loop_fuel (f1 : nat) :
  forall f2 rooted rest out dotdot,
  length rest <= f1 -> length rest <= f2 ->
  clean_loop f1 rooted rest out dotdot = clean_loop f2 rooted rest out dotdot.
Proof.
  induction f1 as [|f1 IH]; intros f2 rooted rest out dotdot H1 H2.
  - destruct rest; [| simpl in H1; lia]. destruct f2; reflexivity.
  - destruct rest as [|c rest1]; [destruct f2; reflexivity |].
    destruct f2 as [|f2]; [simpl in H2; lia |].
    simpl in H1, H2. cbn [clean_loop].
    assert (Htl : length (tl rest1) <= length rest1) by (destruct rest1; simpl; lia).
    destruct (is_slash c) eqn:Hs; [apply IH; lia |].
    destruct (is_dot c && at_end_or_slash rest1); [apply IH; lia |].
    destruct (is_dot c && is_dot (hd slash rest1) && at_end_or_slash (tl rest1)).
    + destruct (dotdot <? length out); [apply IH; lia |].
      destruct (negb rooted); apply IH; lia.
    + destruct (element (c :: rest1)) as [e rest'] eqn:Hel.
      pose proof (element_spec _ _ _ Hel) as (_ & _ & Hlen).
      assert (0 < length e).
      { simpl in Hel. rewrite Hs in Hel. destruct (element rest1).
        injection Hel as <- _. simpl. lia. }
      simpl in Hlen. apply IH; lia.
Qed.

(** On a path of plain elements the loop appends the path to what is
    written already, after a slash when something is written. *)
Lemma clean_loop_plain (fuel : nat) :
  forall p out dotdot, length p <= fuel -> plain_path p = true ->
  clean_loop fuel false p out dotdot
  = (if negb (length out =? 0) then out ++ [slash] else out) ++ p.
Proof.
  induction fuel as [fuel IH] using lt_wf_ind. intros p out dotdot Hlen Hpl.
  destruct (element p) as [e rest] eqn:Hel.
  destruct (element_spec p e rest Hel) as (Hseg & Hrest & Hlp).
  unfold plain_path in Hpl. rewrite Hseg in Hpl. simpl in Hpl.
  apply andb_true_iff in Hpl as [He Hpl].
  assert (Hne : 0 < length e) by (destruct e; [discriminate | simpl; lia]).
  destruct fuel as [|fuel]; [lia |].
  rewrite (clean_loop_plain_element fuel p out dotdot e rest Hel He).
  set (out1 := if negb (length out =? 0) then out ++ [slash] else out).
  destruct Hrest as [-> | [p' ->]].
  - assert (p = e) as ->.
    { rewrite (element_app p e [] Hel). apply app_nil_r. }
    destruct fuel; reflexivity.
  - simpl in Hlp. destruct fuel as [|fuel]; [lia |].
    cbn [clean_loop]. change (is_slash slash) with true. cbn iota.
    rewrite (IH fuel); [| lia | lia | exact Hpl].
    pose proof (element_app p e _ Hel) as Hp.
    rewrite Hp. rewrite length_app.
    replace (length out1 + length e =? 0) with false
      by (symmetry; apply Nat.eqb_neq; lia).
    simpl. rewrite <- !app_assoc. reflexivity.
Qed.

(** [path.Clean] returns a path of plain elements as it is. *)
Lemma Clean_plain (s : string) : plainName s = true -> Clean s = s.
Proof.
  unfold plainName, Clean. intros Hpl.
  set (p := list_ascii_of_string s) in *.
  assert (Hc : clean_bytes p = p).
  { destruct p as [|c p'] eqn:Hp; [discriminate |].
    unfold clean_bytes.
    assert (Hs : is_slash c = false).
    { unfold plain_path in Hpl. simpl in Hpl.
      destruct (is_slash c); [discriminate | reflexivity]. }
    rewrite Hs.
    rewrite (clean_loop_plain (length (c :: p')) (c :: p') [] 0 (le_n _) Hpl).
    reflexivity. }
  rewrite Hc. apply string_of_list_ascii_of_string.
Qed.

(** [path.Join("thumb", x)] cleans [thumb/x]. *)
Lemma Join_thumb (x : string) :
  Join ["thumb"; x] = Clean ("thumb/" +:+ x).
Proof. reflexivity. Qed.

(** A plain name stays plain when its extension is replaced by [.jpg]
    and [thumb/] is put in front. *)
Lemma plainName_thumb (n : string) :
  plainName n = true ->
  plainName ("thumb/" +:+ nameWithoutExt n +:+ ".jpg") = true.
Proof.
  unfold plainName, plain_path. intros Hpl.
  rewrite (nameWithoutExt_bytes n) in Hpl.
  destruct (ext_bytes_spec (list_ascii_of_string n)) as [Hns _].
  rewrite (segments_app_no_slash _ _ Hns) in Hpl.
  apply (plain_app_last _ _ _ plain_segment_jpg) in Hpl.
  rewrite <- segments_app_no_slash in Hpl by reflexivity.
  rewrite <- list_ascii_app in Hpl.
  set (y := nameWithoutExt n +:+ ".jpg") in *.
  rewrite (list_ascii_app "thumb/" y). simpl.
  pose proof (segments_not_nil (list_ascii_of_string y)) as Hne.
  destruct (segments (list_ascii_of_string y)) as [|s0 ss]; [contradiction |].
  simpl in Hpl. exact Hpl.
Qed.

End PathFacts.

(** ** Runs of the path functions *)

Example getThumbPath_video :
  getThumbPath "folder/video.mp4" = "thumb/folder/video.jpg".
Proof. reflexivity. Qed.

Example getThumbPath_no_ext : getThumbPath "folder/README" = "thumb/folder/README.jpg".
Proof. reflexivity. Qed.

Example getThumbPath_dotdot : getThumbPath "../x.png" = "x.jpg".
Proof. reflexivity. Qed.

Example getThumbPath_double_slash : getThumbPath "a//b.png" = "thumb/a/b.jpg".
Proof. reflexivity. Qed.

(** The cases of the table-driven tests of Go's [path] package. *)
Example Clean_already_clean :
  map GoPath.Clean
    [""; "abc"; "abc/def"; "a/b/c"; "."; ".."; "../.."; "../../abc"; "/abc"; "/"]
  = ["."; "abc"; "abc/def"; "a/b/c"; "."; ".."; "../.."; "../../abc"; "/abc"; "/"].
Proof. reflexivity. Qed.

Example Clean_slashes :
  map GoPath.Clean
    ["abc/"; "abc/def/"; "a/b/c/"; "./"; "../"; "../../"; "/abc/";
     "abc//def//ghi"; "//abc"; "///abc"; "//abc//"; "abc//"]
  = ["abc"; "abc/def"; "a/b/c"; "."; ".."; "../.."; "/abc";
     "abc/def/ghi"; "/abc"; "/abc"; "/abc"; "abc"].
Proof. reflexivity. Qed.

Example Clean_dots :
  map GoPath.Clean
    ["abc/./def"; "/./abc/def"; "abc/."; "abc/def/ghi/../jkl";
     "abc/def/../ghi/../jkl"; "abc/def/.."; "abc/def/../.."; "/abc/def/../..";
     "abc/def/../../.."; "/abc/def/../../..";
     "abc/def/../../../ghi/jkl/../../../mno";
     "abc/./../def"; "abc//./../def"; "abc/../../././../def"]
  = ["abc/def"; "/abc/def"; "abc"; "abc/def/jkl";
     "abc/jkl"; "abc"; "."; "/";
     ".."; "/";
     "../../mno";
     "def"; "def"; "../../def"].
Proof. reflexivity. Qed.

Example Join_cases :
  map GoPath.Join
    [["a"; "b"]; ["a"; ""]; [""; "b"]; ["/"; "a"]; ["/"; ""]; ["a/"; "b"];
     ["a/"; ""]; [""; ""]; []]
  = ["a/b"; "a"; "b"; "/a"; "/"; "a/b"; "a"; ""; ""].
Proof. reflexivity. Qed.

Example Ext_cases :
  map GoPath.Ext ["path.go"; "path.pb.go"; "a.dir/b"; "a.dir/b.go"; "a.dir/"]
  = [".go"; ".go"; ""; ".go"; ""].
Proof. reflexivity. Qed.

Example hasSuffix_upper_case :
  hasSuffix worldOk "Holiday/IMG_01.JPG" imageExts = true
  /\ hasSuffix worldOk "clip.MoV" videoExts = true
  /\ hasSuffix worldOk "notes.txt" mediaExts = false.
Proof. repeat split. Qed.

(** ** The thumbnail key *)

(** C1, as amended.  For every object name [n] that has an extension and
    whose elements are all plain (no leading, trailing or doubled slash,
    no [.] or [..] element), [getThumbPath n] is exactly ["thumb/"],
    followed by [n] without its extension, followed by [".jpg"]. *)
Theorem getThumbPath_plain_name (n : string) :
  GoPath.Ext n <> "" ->
  plainName n = true ->
  getThumbPath n = "thumb/" +:+ nameWithoutExt n +:+ ".jpg".
Proof.
  intros _ Hpl. unfold getThumbPath.
  rewrite Join_thumb. apply Clean_plain, plainName_thumb, Hpl.
Qed.

Lemma getThumbPath_plain_name_witness :
  GoPath.Ext "photos/vacation.jpeg" <> ""
  /\ plainName "photos/vacation.jpeg" = true
  /\ getThumbPath "photos/vacation.jpeg" = "thumb/photos/vacation.jpg".
Proof.
  split; [discriminate |]. split; [reflexivity |].
  apply (getThumbPath_plain_name "photos/vacation.jpeg"); [discriminate | reflexivity].
Defined.

(** C1, as stated, fails: [path.Join] cleans the joined path, so the
    doubled slash of [a//b.png] is not kept in the key, which stays under
    [thumb/]. *)
Lemma getThumbPath_not_concatenation :
  GoPath.Ext "a//b.png" = ".png"
  /\ nameWithoutExt "a//b.png" = "a//b"
  /\ getThumbPath "a//b.png" = "thumb/a/b.jpg"
  /\ getThumbPath "a//b.png" <> "thumb/" +:+ nameWithoutExt "a//b.png" +:+ ".jpg".
Proof.
  split; [reflexivity |]. split; [reflexivity |]. split; [reflexivity | discriminate].
Qed.

(** ** Listing *)

Lemma indexFiles_names (w : World) (objs : list ListedObject) :
  map Name (indexFiles w objs) = map objName (List.filter shown objs).
Proof.
  induction objs as [|o objs IH]; simpl; [reflexivity |].
  unfold shown at 1.
  destruct (GoStrings.HasPrefix (objName o) "thumb/"); simpl; [exact IH |].
  destruct (objAttrs o); simpl; [now rewrite IH | exact IH].
Qed.

(** C5.  When the iteration over the bucket ends without error, the index
    page lists, in order, exactly the objects whose name does not start
    with [thumb/] and whose attributes could be fetched. *)
Theorem index_lists_all_but_thumb (w : World) (objs : list ListedObject)
    (iterErr : option string) :
  iterErr = None ->
  exists files,
    indexHandler w objs iterErr = RespIndex (bktName w) files
    /\ map Name files = map objName (List.filter shown objs).
Proof.
  intros ->. exists (indexFiles w objs). split; [reflexivity |].
  apply indexFiles_names.
Qed.

(** The bucket with [a.jpg], [thumb/a.jpg] and [b.mp4] is listed as
    [a.jpg], [b.mp4]. *)
Lemma index_lists_all_but_thumb_witness :
  exists files,
    indexHandler worldOk bucket3 None = RespIndex "bucket" files
    /\ map Name files = ["a.jpg"; "b.mp4"].
Proof.
  exact (index_lists_all_but_thumb worldOk bucket3 None eq_refl).
Defined.

(** ** Video thumbnails *)

(** C10.  When the transcoder succeeds and the frame it left cannot be
    decoded, [generateVideoThumbnail] returns the bytes of the frame as
    they are, with a nil error. *)
Theorem video_frame_undecodable_returned_raw (w : World) (video frame : bytes) :
  createTemp w "vid-thumb-*.jpg" = true ->
  ffmpeg w video = Some frame ->
  readFile w = true ->
  Decode w frame = None ->
  generateVideoThumbnail w video = (frame, None, [EvTranscode video; EvDecode frame]).
Proof.
  intros Ht Hf Hr Hd. unfold generateVideoThumbnail.
  now rewrite Ht, Hf, Hr, Hd.
Qed.

Lemma video_frame_undecodable_returned_raw_witness :
  generateVideoThumbnail worldRawFrame pngBytes
  = (junkBytes, None, [EvTranscode pngBytes; EvDecode junkBytes]).
Proof.
  apply (video_frame_undecodable_returned_raw worldRawFrame pngBytes junkBytes);
    reflexivity.
Defined.

(** A failing transcoder makes [generateVideoThumbnail] return an error. *)
Lemma generateVideoThumbnail_transcoder_fails (w : World) (video : bytes) :
  ffmpeg w video = None ->
  exists data e tr, generateVideoThumbnail w video = (data, Some e, tr).
Proof.
  intros Hf. unfold generateVideoThumbnail.
  destruct (createTemp w "vid-thumb-*.jpg"); simpl; [rewrite Hf |]; eauto.
Qed.

(** ** The thumbnail handler: hit and miss *)

Section ThumbFacts.
Variable w : World.

Lemma thumbHandler_hit (st : Store) (urlPath : string) (cached : bytes) :
  thumbOriginalName urlPath <> "" ->
  st !! getThumbPath (thumbOriginalName urlPath) = Some cached ->
  thumbHandler w st urlPath
  = {| resp := RespBytes jpegHeader cached; store := st; trace := [] |}.
Proof.
  intros Hne Hhit. unfold thumbHandler.
  apply String.eqb_neq in Hne. now rewrite Hne, Hhit.
Qed.

Lemma thumbHandler_miss (st : Store) (urlPath : string) (orig : bytes) :
  let name := thumbOriginalName urlPath in
  let key := getThumbPath name in
  let tr0 := [EvLog ("Generating missing thumbnail: " +:+ name +:+ " -> " +:+ key)] in
  name <> "" ->
  st !! key = None ->
  createTemp w ("orig-*" +:+ filepathExt name) = true ->
  copyToTemp w = true ->
  st !! name = Some orig ->
  thumbHandler w st urlPath
  = match thumbGenerate w name orig with
    | (inl r, tr) => {| resp := r; store := st; trace := tr0 ++ tr |}
    | (inr thumbData, tr) =>
        {| resp := RespBytes jpegHeader thumbData;
           store := fst (saveThumb w st key thumbData);
           trace := tr0 ++ tr ++ snd (saveThumb w st key thumbData) |}
    end.
Proof.
  intros name key tr0 Hne Hmiss Htmp Hcp Horig. unfold thumbHandler.
  fold name. fold key. apply String.eqb_neq in Hne.
  rewrite Hne, Hmiss, Htmp. unfold download. rewrite Hcp, Horig. simpl.
  destruct (thumbGenerate w name orig) as [[r | thumbData] tr]; [reflexivity |].
  now destruct (saveThumb w st key thumbData).
Qed.

(** The handler answers with bytes only under the thumbnail header, and
    then either the key was cached or it is written with those bytes. *)
Lemma thumbHandler_bytes (st : Store) (urlPath : string) (h : list (string * string))
    (body : bytes) :
  resp (thumbHandler w st urlPath) = RespBytes h body ->
  thumbOriginalName urlPath <> "" /\ h = jpegHeader
  /\ ((st !! getThumbPath (thumbOriginalName urlPath) = Some body
       /\ store (thumbHandler w st urlPath) = st)
      \/ store (thumbHandler w st urlPath)
         = fst (saveThumb w st (getThumbPath (thumbOriginalName urlPath)) body)).
Proof.
  unfold thumbHandler.
  destruct (String.eqb (thumbOriginalName urlPath) "") eqn:Hn; [discriminate |].
  apply String.eqb_neq in Hn.
  destruct (st !! getThumbPath (thumbOriginalName urlPath)) as [cached|] eqn:Hk.
  - simpl. intros [= <- <-]. auto.
  - destruct (createTemp w _); simpl; [| discriminate].
    destruct (download w st _) as [orig|]; [| discriminate].
    destruct (thumbGenerate w _ orig) as [[r | thumbData] tr] eqn:Hg.
    + unfold thumbGenerate in Hg.
      destruct (hasSuffix w _ videoExts).
      * destruct (generateVideoThumbnail w orig) as [[d [e|]] t];
          simplify_eq; discriminate.
      * destruct (Decode w orig); simplify_eq; discriminate.
    + destruct (saveThumb w st _ thumbData) as [st' trw] eqn:Hs. simpl.
      intros [= <- <-]. rewrite Hs. auto.
Qed.

End ThumbFacts.

(** ** The thumbnail handler: claims *)

(** C4.  A request whose thumbnail key is in the store is answered with
    the stored bytes, the store is left as it is and neither the codec
    nor the transcoder is called (the handler produces no event at all).
    And when a first request was answered with bytes and the write of the
    key took effect, the same request on the resulting store is answered
    with the same bytes, again without any event. *)
Theorem cached_thumbnail_served_without_generation (w : World) (st : Store)
    (urlPath : string) :
  thumbOriginalName urlPath <> "" ->
  (forall cached,
     st !! getThumbPath (thumbOriginalName urlPath) = Some cached ->
     thumbHandler w st urlPath
     = {| resp := RespBytes jpegHeader cached; store := st; trace := [] |})
  /\ (forall h body,
        resp (thumbHandler w st urlPath) = RespBytes h body ->
        put w (getThumbPath (thumbOriginalName urlPath)) = PutOk ->
        thumbHandler w (store (thumbHandler w st urlPath)) urlPath
        = {| resp := RespBytes h body; store := store (thumbHandler w st urlPath);
             trace := [] |}).
Proof.
  intros Hne. split.
  - intros cached Hhit. now apply thumbHandler_hit.
  - intros h body Hresp Hput.
    destruct (thumbHandler_bytes w st urlPath h body Hresp) as (_ & -> & Hst).
    apply thumbHandler_hit; [exact Hne |].
    destruct Hst as [[Hhit ->] | ->]; [exact Hhit |].
    unfold saveThumb. rewrite Hput. simpl. apply lookup_insert_eq.
Qed.

(** The image [photos/x.png]: a first request generates its thumbnail,
    a second one is served from the store. *)
Lemma cached_thumbnail_served_without_generation_witness :
  thumbOriginalName "/thumb/photos/x.png" <> ""
  /\ resp (thumbHandler worldOk storePhoto "/thumb/photos/x.png")
     = RespBytes jpegHeader pngThumb
  /\ thumbHandler worldOk
       (store (thumbHandler worldOk storePhoto "/thumb/photos/x.png"))
       "/thumb/photos/x.png"
     = {| resp := RespBytes jpegHeader pngThumb;
          store := store (thumbHandler worldOk storePhoto "/thumb/photos/x.png");
          trace := [] |}.
Proof.
  split; [discriminate |]. split; [reflexivity |].
  apply (proj2 (cached_thumbnail_served_without_generation worldOk storePhoto
                  "/thumb/photos/x.png" ltac:(discriminate)));
    reflexivity.
Defined.

(** C7.  For a video-classified name whose thumbnail is missing and whose
    original was fetched, a failing transcoder makes the handler answer
    with the redirect to the placeholder icon, not with a server error;
    the store is left as it is. *)
Theorem video_transcoder_failure_redirects (w : World) (st : Store)
    (urlPath : string) (orig : bytes) :
  thumbOriginalName urlPath <> "" ->
  st !! getThumbPath (thumbOriginalName urlPath) = None ->
  createTemp w ("orig-*" +:+ filepathExt (thumbOriginalName urlPath)) = true ->
  copyToTemp w = true ->
  st !! thumbOriginalName urlPath = Some orig ->
  hasSuffix w (thumbOriginalName urlPath) videoExts = true ->
  ffmpeg w orig = None ->
  resp (thumbHandler w st urlPath) = RespRedirect "/static/file-icon.png" 302
  /\ store (thumbHandler w st urlPath) = st.
Proof.
  intros Hne Hmiss Htmp Hcp Horig Hvid Hff.
  rewrite (thumbHandler_miss w st urlPath orig Hne Hmiss Htmp Hcp Horig).
  unfold thumbGenerate. rewrite Hvid.
  destruct (generateVideoThumbnail_transcoder_fails w orig Hff) as (d & e & tr & ->).
  split; reflexivity.
Qed.

Lemma video_transcoder_failure_redirects_witness :
  resp (thumbHandler worldOk storeClip "/thumb/clips/y.mp4")
  = RespRedirect "/static/file-icon.png" 302
  /\ store (thumbHandler worldOk storeClip "/thumb/clips/y.mp4") = storeClip.
Proof.
  apply (video_transcoder_failure_redirects worldOk storeClip "/thumb/clips/y.mp4"
           junkBytes);
    solve [discriminate | reflexivity].
Defined.

(** The generation block of the handler returns bytes exactly when the
    collaborators yield some, and it never logs a failed save. *)
Lemma thumbGenerate_generated (w : World) (name : string) (orig thumbData : bytes) :
  generatedThumb w (hasSuffix w name videoExts) orig = Some thumbData ->
  exists tr,
    thumbGenerate w name orig = (inr thumbData, tr)
    /\ ~ In (EvLog "Failed to save thumb:") tr.
Proof.
  unfold generatedThumb, thumbGenerate.
  destruct (hasSuffix w name videoExts).
  - unfold generateVideoThumbnail.
    destruct (createTemp w "vid-thumb-*.jpg"); simpl; [| discriminate].
    destruct (ffmpeg w orig) as [frame|]; simpl; [| discriminate].
    destruct (readFile w); simpl; [| discriminate].
    destruct (Decode w frame) as [img|].
    + destruct (Encode w (Resize w img)) as [buf [e|]]; [discriminate |].
      intros [= <-]. eexists. split; [reflexivity |].
      simpl. intros [H | [H | []]]; discriminate.
    + intros [= <-]. eexists. split; [reflexivity |].
      simpl. intros [H | [H | []]]; discriminate.
  - destruct (Decode w orig) as [img|]; [| discriminate].
    intros [= <-]. eexists. split; [reflexivity |].
    simpl. intros [H | []]; discriminate.
Qed.

(** C8, as amended.  When generation has produced [thumbData] and the
    write of the thumbnail fails, the handler still answers with
    [thumbData] under the thumbnail header and the store is unchanged.
    The failure is logged when it is the error returned by [Write]; a
    failure that comes out only when the writer is closed is not logged. *)
Theorem thumb_write_failure_still_served (w : World) (st : Store)
    (urlPath : string) (orig thumbData : bytes) :
  thumbOriginalName urlPath <> "" ->
  st !! getThumbPath (thumbOriginalName urlPath) = None ->
  createTemp w ("orig-*" +:+ filepathExt (thumbOriginalName urlPath)) = true ->
  copyToTemp w = true ->
  st !! thumbOriginalName urlPath = Some orig ->
  generatedThumb w (hasSuffix w (thumbOriginalName urlPath) videoExts) orig
  = Some thumbData ->
  put w (getThumbPath (thumbOriginalName urlPath)) <> PutOk ->
  resp (thumbHandler w st urlPath) = RespBytes jpegHeader thumbData
  /\ store (thumbHandler w st urlPath) = st
  /\ (put w (getThumbPath (thumbOriginalName urlPath)) = PutWriteErr ->
      In (EvLog "Failed to save thumb:") (trace (thumbHandler w st urlPath)))
  /\ (put w (getThumbPath (thumbOriginalName urlPath)) = PutCloseErr ->
      ~ In (EvLog "Failed to save thumb:") (trace (thumbHandler w st urlPath))).
Proof.
  intros Hne Hmiss Htmp Hcp Horig Hgen Hput.
  destruct (thumbGenerate_generated w _ orig thumbData Hgen) as (tr & Htg & Hnolog).
  rewrite (thumbHandler_miss w st urlPath orig Hne Hmiss Htmp Hcp Horig).
  rewrite Htg. unfold saveThumb.
  destruct (put w (getThumbPath (thumbOriginalName urlPath))) eqn:Hp;
    [contradiction | |]; simpl.
  - split; [reflexivity | split; [reflexivity | split; [| discriminate]]]. intros _.
    right. apply in_or_app. right. simpl. auto.
  - split; [reflexivity | split; [reflexivity | split; [discriminate |]]]. intros _.
    intros [H | H]; [discriminate |].
    apply in_app_or in H as [H | [H | []]]; [exact (Hnolog H) | discriminate].
Qed.

Lemma thumb_write_failure_still_served_witness :
  resp (thumbHandler worldWriteErr storePhoto "/thumb/photos/x.png")
  = RespBytes jpegHeader pngThumb
  /\ store (thumbHandler worldWriteErr storePhoto "/thumb/photos/x.png") = storePhoto
  /\ (put worldWriteErr (getThumbPath (thumbOriginalName "/thumb/photos/x.png"))
      = PutWriteErr ->
      In (EvLog "Failed to save thumb:")
         (trace (thumbHandler worldWriteErr storePhoto "/thumb/photos/x.png")))
  /\ (put worldWriteErr (getThumbPath (thumbOriginalName "/thumb/photos/x.png"))
      = PutCloseErr ->
      ~ In (EvLog "Failed to save thumb:")
          (trace (thumbHandler worldWriteErr storePhoto "/thumb/photos/x.png"))).
Proof.
  apply (thumb_write_failure_still_served worldWriteErr storePhoto
           "/thumb/photos/x.png" pngBytes pngThumb);
    solve [discriminate | reflexivity].
Defined.

(** C8, as stated, fails on its last clause: when the write of the
    thumbnail of [photos/x.png] is lost with the error coming out only at
    [Close], the bytes are served and nothing is stored, and the handler
    logs no failure. *)
Lemma thumb_close_failure_not_logged :
  generatedThumb worldCloseErr (hasSuffix worldCloseErr "photos/x.png" videoExts) pngBytes
  = Some pngThumb
  /\ put worldCloseErr "thumb/photos/x.jpg" = PutCloseErr
  /\ resp (thumbHandler worldCloseErr storePhoto "/thumb/photos/x.png")
     = RespBytes jpegHeader pngThumb
  /\ store (thumbHandler worldCloseErr storePhoto "/thumb/photos/x.png")
     !! "thumb/photos/x.jpg" = None
  /\ trace (thumbHandler worldCloseErr storePhoto "/thumb/photos/x.png")
     = [EvLog "Generating missing thumbnail: photos/x.png -> thumb/photos/x.jpg";
        EvDecode pngBytes; EvWrite "thumb/photos/x.jpg" pngThumb]
  /\ ~ In (EvLog "Failed to save thumb:")
         (trace (thumbHandler worldCloseErr storePhoto "/thumb/photos/x.png")).
Proof.
  split; [reflexivity |]. split; [reflexivity |]. split; [reflexivity |].
  split; [reflexivity |]. split; [reflexivity |].
  simpl. intros [H | [H | [H | []]]]; discriminate.
Qed.

(** C2, as amended.  For a name that is not video-classified (an image
    in particular) whose thumbnail is missing and whose original was
    fetched, a failing decode makes the handler answer with the server
    error [decode failed] (500); nothing is written to the store. *)
Theorem image_decode_failure_is_server_error (w : World) (st : Store)
    (urlPath : string) (orig : bytes) :
  thumbOriginalName urlPath <> "" ->
  st !! getThumbPath (thumbOriginalName urlPath) = None ->
  createTemp w ("orig-*" +:+ filepathExt (thumbOriginalName urlPath)) = true ->
  copyToTemp w = true ->
  st !! thumbOriginalName urlPath = Some orig ->
  hasSuffix w (thumbOriginalName urlPath) videoExts = false ->
  Decode w orig = None ->
  resp (thumbHandler w st urlPath) = RespError "decode failed" 500
  /\ store (thumbHandler w st urlPath) = st.
Proof.
  intros Hne Hmiss Htmp Hcp Horig Hvid Hdec.
  rewrite (thumbHandler_miss w st urlPath orig Hne Hmiss Htmp Hcp Horig).
  unfold thumbGenerate. rewrite Hvid, Hdec. split; reflexivity.
Qed.

Lemma image_decode_failure_is_server_error_witness :
  resp (thumbHandler worldNoDecode storeJunkPhoto "/thumb/photos/x.png")
  = RespError "decode failed" 500
  /\ store (thumbHandler worldNoDecode storeJunkPhoto "/thumb/photos/x.png")
     = storeJunkPhoto.
Proof.
  apply (image_decode_failure_is_server_error worldNoDecode storeJunkPhoto
           "/thumb/photos/x.png" junkBytes);
    solve [discriminate | reflexivity].
Defined.

(** C2, as stated, fails: for the image [photos/x.png] whose bytes do not
    decode, the handler does not answer with the original bytes but with
    a server error. *)
Lemma image_decode_failure_no_fallback :
  hasSuffix worldNoDecode "photos/x.png" imageExts = true
  /\ storeJunkPhoto !! "photos/x.png" = Some junkBytes
  /\ Decode worldNoDecode junkBytes = None
  /\ resp (thumbHandler worldNoDecode storeJunkPhoto "/thumb/photos/x.png")
     = RespError "decode failed" 500
  /\ forall h,
       resp (thumbHandler worldNoDecode storeJunkPhoto "/thumb/photos/x.png")
       <> RespBytes h junkBytes.
Proof.
  split; [reflexivity |]. split; [reflexivity |]. split; [reflexivity |].
  split; [reflexivity | discriminate].
Qed.

(** ** Names that are neither image nor video *)

Lemma hasSuffix_range_app (w : World) (name : string) (l1 l2 : list string) :
  hasSuffix_range w name (l1 ++ l2)
  = hasSuffix_range w name l1 || hasSuffix_range w name l2.
Proof.
  induction l1 as [|s l1 IH]; simpl; [reflexivity |].
  destruct (GoStrings.HasSuffix name (ToLower w s)); [reflexivity | exact IH].
Qed.

(** Media names are the image names and the video names. *)
Lemma hasSuffix_media (w : World) (name : string) :
  hasSuffix w name mediaExts
  = hasSuffix w name imageExts || hasSuffix w name videoExts.
Proof. apply hasSuffix_range_app. Qed.

Lemma indexFiles_entry (w : World) (objs : list ListedObject) (f : FileEntry) :
  In f (indexFiles w objs) ->
  GoStrings.HasPrefix (Name f) "thumb/" = false
  /\ ThumbURL f = (if hasSuffix w (Name f) mediaExts
                   then "/thumb/" +:+ Name f else "/static/file-icon.png").
Proof.
  induction objs as [|o objs IH]; simpl; [contradiction |].
  destruct (GoStrings.HasPrefix (objName o) "thumb/") eqn:Hp; [exact IH |].
  destruct (objAttrs o) as [attrs|]; [| exact IH].
  intros [<- | Hin]; [| exact (IH Hin)].
  simpl. split; [exact Hp | reflexivity].
Qed.

(** C3, as amended.  For a name that is neither image- nor
    video-classified, the index page gives the entry the placeholder icon
    as its thumbnail URL, not a URL of the thumbnail handler, and the
    upload handler calls neither the codec nor the transcoder. *)
Theorem other_names_routed_to_placeholder (w : World) (name : string) :
  hasSuffix w name imageExts = false ->
  hasSuffix w name videoExts = false ->
  (forall objs f, In f (indexFiles w objs) -> Name f = name ->
     ThumbURL f = "/static/file-icon.png")
  /\ (forall st r filename content,
        FormFile r = Some (filename, content) ->
        objectPathOf filename (folder r) (custom_name r) = name ->
        forallb (fun ev => negb (is_generation ev)) (trace (uploadHandler w st r)) = true).
Proof.
  intros Himg Hvid. split.
  - intros objs f Hin Hname.
    destruct (indexFiles_entry w objs f Hin) as [_ ->].
    now rewrite Hname, hasSuffix_media, Himg, Hvid.
  - intros st r filename content Hfile Hpath. unfold uploadHandler.
    destruct (String.eqb (Method r) "GET"); [reflexivity |].
    rewrite Hfile, Hpath.
    destruct (createTemp w _); [| reflexivity].
    destruct (copyToTemp w); [| reflexivity]. simpl.
    unfold uploadGenerate. rewrite Hvid, Himg.
    destruct (put w name); reflexivity.
Qed.

Lemma other_names_routed_to_placeholder_witness :
  (forall objs f, In f (indexFiles worldOk objs) -> Name f = "notes.txt" ->
     ThumbURL f = "/static/file-icon.png")
  /\ (forall st r filename content,
        FormFile r = Some (filename, content) ->
        objectPathOf filename (folder r) (custom_name r) = "notes.txt" ->
        forallb (fun ev => negb (is_generation ev))
          (trace (uploadHandler worldOk st r)) = true).
Proof.
  apply (other_names_routed_to_placeholder worldOk "notes.txt"); reflexivity.
Defined.

(** C3, as stated, fails in the thumbnail handler: it has no case for
    such names.  A request for the thumbnail of [notes.txt] goes through
    the image decoder and, when the bytes decode, a thumbnail is
    generated and stored; no placeholder is involved. *)
Lemma other_name_still_decoded :
  hasSuffix worldOk "notes.txt" imageExts = false
  /\ hasSuffix worldOk "notes.txt" videoExts = false
  /\ resp (thumbHandler worldOk storeNotes "/thumb/notes.txt")
     = RespBytes jpegHeader pngThumb
  /\ trace (thumbHandler worldOk storeNotes "/thumb/notes.txt")
     = [EvLog "Generating missing thumbnail: notes.txt -> thumb/notes.jpg";
        EvDecode pngBytes; EvWrite "thumb/notes.jpg" pngThumb]
  /\ store (thumbHandler worldOk storeNotes "/thumb/notes.txt") !! "thumb/notes.jpg"
     = Some pngThumb.
Proof.
  split; [reflexivity |]. split; [reflexivity |]. split; [reflexivity |].
  split; reflexivity.
Qed.

(** ** Which names reach the key mapping *)

Lemma HasPrefix_app_both (a s p : string) :
  GoStrings.HasPrefix (a +:+ s) (a +:+ p) = GoStrings.HasPrefix s p.
Proof.
  induction a as [|c a IH]; [reflexivity |].
  rewrite <- IH. unfold GoStrings.HasPrefix, GoStrings.slice_to.
  change (String c a +:+ s) with (String c (a +:+ s)).
  change (String c a +:+ p) with (String c (a +:+ p)).
  cbn [String.length String.substring String.eqb]. rewrite Ascii.eqb_refl.
  reflexivity.
Qed.

(** C9, as amended.  For a request of path [/thumb/rest] with [rest] not
    empty, the name that the handler passes to the key mapping is [rest],
    whatever it is: the key [getThumbPath rest] is the one served on a
    hit and the one logged on a miss.  That name starts with [thumb/]
    exactly when the request path starts with [/thumb/thumb/]. *)
Theorem thumbHandler_maps_trimmed_path (w : World) (st : Store) (rest : string) :
  rest <> "" ->
  thumbOriginalName ("/thumb/" +:+ rest) = rest
  /\ GoStrings.HasPrefix (thumbOriginalName ("/thumb/" +:+ rest)) "thumb/"
     = GoStrings.HasPrefix ("/thumb/" +:+ rest) "/thumb/thumb/"
  /\ (forall cached,
        st !! getThumbPath rest = Some cached ->
        thumbHandler w st ("/thumb/" +:+ rest)
        = {| resp := RespBytes jpegHeader cached; store := st; trace := [] |})
  /\ (st !! getThumbPath rest = None ->
      hd_error (trace (thumbHandler w st ("/thumb/" +:+ rest)))
      = Some (EvLog ("Generating missing thumbnail: " +:+ rest
                     +:+ " -> " +:+ getThumbPath rest))).
Proof.
  intros Hne.
  assert (Hname : thumbOriginalName ("/thumb/" +:+ rest) = rest)
    by (unfold thumbOriginalName; apply TrimPrefix_app).
  split; [exact Hname |]. split.
  { rewrite Hname. symmetry. apply (HasPrefix_app_both "/thumb/" rest "thumb/"). }
  split.
  - intros cached Hhit. apply thumbHandler_hit; rewrite Hname; assumption.
  - intros Hmiss. unfold thumbHandler. rewrite Hname.
    apply String.eqb_neq in Hne. rewrite Hne, Hmiss.
    destruct (createTemp w _); simpl; [| reflexivity].
    destruct (download w st rest) as [orig|]; [| reflexivity].
    destruct (thumbGenerate w rest orig) as [[r | thumbData] tr]; [reflexivity |].
    destruct (saveThumb w st (getThumbPath rest) thumbData). reflexivity.
Qed.

Lemma thumbHandler_maps_trimmed_path_witness :
  thumbOriginalName ("/thumb/" +:+ "photos/x.png") = "photos/x.png"
  /\ GoStrings.HasPrefix (thumbOriginalName ("/thumb/" +:+ "photos/x.png")) "thumb/"
     = GoStrings.HasPrefix ("/thumb/" +:+ "photos/x.png") "/thumb/thumb/"
  /\ (forall cached,
        storePhoto !! getThumbPath "photos/x.png" = Some cached ->
        thumbHandler worldOk storePhoto ("/thumb/" +:+ "photos/x.png")
        = {| resp := RespBytes jpegHeader cached; store := storePhoto; trace := [] |})
  /\ (storePhoto !! getThumbPath "photos/x.png" = None ->
      hd_error (trace (thumbHandler worldOk storePhoto ("/thumb/" +:+ "photos/x.png")))
      = Some (EvLog ("Generating missing thumbnail: " +:+ "photos/x.png"
                     +:+ " -> " +:+ getThumbPath "photos/x.png"))).
Proof.
  apply (thumbHandler_maps_trimmed_path worldOk storePhoto "photos/x.png").
  discriminate.
Defined.

(** C9, as stated, fails: a request for [/thumb/thumb/a.jpg] reaches the
    handler, which maps the name [thumb/a.jpg], itself under [thumb/], to
    the key [thumb/thumb/a.jpg] and stores a thumbnail there. *)
Lemma thumb_of_thumb_requested :
  thumbOriginalName "/thumb/thumb/a.jpg" = "thumb/a.jpg"
  /\ GoStrings.HasPrefix (thumbOriginalName "/thumb/thumb/a.jpg") "thumb/" = true
  /\ getThumbPath (thumbOriginalName "/thumb/thumb/a.jpg") = "thumb/thumb/a.jpg"
  /\ hd_error (trace (thumbHandler worldOk storeThumbOnly "/thumb/thumb/a.jpg"))
     = Some (EvLog "Generating missing thumbnail: thumb/a.jpg -> thumb/thumb/a.jpg")
  /\ store (thumbHandler worldOk storeThumbOnly "/thumb/thumb/a.jpg")
     !! "thumb/thumb/a.jpg"
     = Some pngThumb.
Proof.
  split; [reflexivity |]. split; [reflexivity |]. split; [reflexivity |].
  split; reflexivity.
Qed.

(** ** Upload *)




(** The same upload with bytes that do not decode is reported in the
    same way, and only [reports/q.jpg] is added. *)
Example upload_undecodable_reported_successful :
  resp (uploadHandler worldNoDecode ∅ uploadJunkReport)
  = RespUpload "bucket" "✅ Uploaded reports/q.jpg (n B)"
  /\ store (uploadHandler worldNoDecode ∅ uploadJunkReport)
     = <["reports/q.jpg" := junkBytes]> ∅.
Proof. split; reflexivity. Qed.

(** * Further properties of the code *)

(** ** More on strings *)

Lemma string_of_list_ascii_app (a b : list ascii) :
  string_of_list_ascii (a ++ b) = string_of_list_ascii a +:+ string_of_list_ascii b.
Proof. induction a as [|c a IH]; simpl; [reflexivity | now rewrite IH]. Qed.

Lemma list_ascii_of_string_inj (a b : string) :
  list_ascii_of_string a = list_ascii_of_string b -> a = b.
Proof.
  intros H. rewrite <- (string_of_list_ascii_of_string a),
    <- (string_of_list_ascii_of_string b). now rewrite H.
Qed.

Lemma append_inv_tail (a b c : string) : a +:+ c = b +:+ c -> a = b.
Proof.
  intros H. apply list_ascii_of_string_inj.
  apply (f_equal list_ascii_of_string) in H. rewrite !list_ascii_app in H.
  now apply app_inv_tail in H.
Qed.

(** [HasSuffix] holds on a string that is built with the suffix. *)
Lemma HasSuffix_app (a b : string) : GoStrings.HasSuffix (a +:+ b) b = true.
Proof.
  unfold GoStrings.HasSuffix, GoStrings.slice_from.
  rewrite length_append.
  replace (String.length a + String.length b - String.length b)
    with (String.length a) by lia.
  replace (String.length a + String.length b - String.length a)
    with (String.length b) by lia.
  rewrite substring_skip, substring_all, String.eqb_refl, andb_true_r.
  apply Nat.leb_le. lia.
Qed.

(** ** More on the path functions *)

Section PathMore.
Import GoPath.

Lemma last_segments_cons (s : list ascii) (ss : list (list ascii)) :
  ss <> [] -> List.last (s :: ss) [] = List.last ss [].
Proof. destruct ss; [contradiction | reflexivity]. Qed.

Lemma last_segment_slash (c : ascii) (p : list ascii) :
  is_slash c = true -> last_segment (c :: p) = last_segment p.
Proof.
  intros Hs. unfold last_segment. simpl. rewrite Hs.
  apply last_segments_cons, segments_not_nil.
Qed.

(** The last element of a path is that of what follows its head element. *)
Lemma last_segment_element (p : list ascii) :
  forall e rest, element p = (e, rest) ->
  last_segment p = match rest with [] => e | _ => last_segment rest end.
Proof.
  intros e rest Hel.
  destruct (element_spec p e rest Hel) as (Hseg & Hrest & _).
  unfold last_segment at 1. rewrite Hseg.
  destruct Hrest as [-> | [p' ->]]; [reflexivity |].
  rewrite last_segments_cons by apply segments_not_nil.
  symmetry. now apply last_segment_slash.
Qed.

Lemma clean_loop_nil (fuel : nat) (rooted : bool) (out : list ascii) (dotdot : nat) :
  clean_loop fuel rooted [] out dotdot = out.
Proof. destruct fuel; reflexivity. Qed.

(** Whatever comes before it, a plain last element is copied by the loop
    of [Clean] to the end of its output. *)
Lemma clean_loop_keeps_last (fuel : nat) :
  forall rooted rest out dotdot,
  length rest <= fuel ->
  plain_segment (last_segment rest) = true ->
  exists x, clean_loop fuel rooted rest out dotdot = x ++ last_segment rest.
Proof.
  induction fuel as [|fuel IH]; intros rooted rest out dotdot Hlen Hpl.
  { destruct rest; [discriminate | simpl in Hlen; lia]. }
  destruct rest as [|c rest1]; [discriminate |].
  simpl in Hlen. cbn [clean_loop].
  destruct (is_slash c) eqn:Hs.
  { rewrite (last_segment_slash c rest1 Hs) in *. apply IH; [lia | exact Hpl]. }
  destruct (element (c :: rest1)) as [e rest'] eqn:Hel.
  pose proof (last_segment_element _ _ _ Hel) as Hlast.
  pose proof (element_spec _ _ _ Hel) as (_ & Hrest & Hl).
  simpl in Hel. rewrite Hs in Hel.
  destruct (element rest1) as [e1 r1] eqn:Hel1. injection Hel as <- <-.
  simpl in Hl.
  destruct (is_dot c && at_end_or_slash rest1) eqn:Hdot.
  { apply andb_true_iff in Hdot as [Hd Hend].
    destruct rest1 as [|d rest2]; simpl in Hel1, Hend.
    - injection Hel1 as <- <-. rewrite Hlast in Hpl. simpl in Hpl.
      now rewrite Hd in Hpl.
    - rewrite Hend in Hel1. injection Hel1 as <- <-.
      rewrite Hlast in *. apply IH; [simpl in Hlen |- *; lia | exact Hpl]. }
  destruct (is_dot c && is_dot (hd slash rest1) && at_end_or_slash (tl rest1)) eqn:Hdd.
  { apply andb_true_iff in Hdd as [Hdd Hend]. apply andb_true_iff in Hdd as [Hd Hd2].
    destruct rest1 as [|d rest2]; [discriminate |]. simpl in Hd2, Hend.
    simpl in Hel1. rewrite (is_dot_not_slash d Hd2) in Hel1.
    destruct (element rest2) as [e2 r2] eqn:Hel2. injection Hel1 as <- <-.
    assert (Hr2 : r2 = rest2 /\ e2 = []).
    { destruct rest2 as [|d3 rest3]; simpl in Hel2, Hend.
      - now injection Hel2 as <- <-.
      - rewrite Hend in Hel2. now injection Hel2 as <- <-. }
    destruct Hr2 as [-> ->]. simpl tl.
    assert (Hlast2 : plain_segment (last_segment rest2) = true
                     /\ last_segment (c :: d :: rest2) = last_segment rest2).
    { rewrite Hlast in *. destruct rest2 as [|d3 rest3]; [| split; [exact Hpl | reflexivity]].
      simpl in Hpl. now rewrite Hd, Hd2 in Hpl. }
    destruct Hlast2 as [Hpl2 ->].
    simpl in Hl, Hlen.
    destruct (dotdot <? length out); [apply IH; [lia | exact Hpl2] |].
    destruct (negb rooted); apply IH; solve [lia | exact Hpl2]. }
  rewrite Hlast in *.
  destruct r1 as [|d r1'].
  - rewrite clean_loop_nil. eexists. reflexivity.
  - apply IH; [simpl in *; lia | exact Hpl].
Qed.

(** [path.Clean] keeps a plain last element at the end of its result. *)
Lemma clean_bytes_keeps_last (p : list ascii) :
  plain_segment (last_segment p) = true ->
  exists x, clean_bytes p = x ++ last_segment p.
Proof.
  intros Hpl. destruct p as [|c p']; [discriminate |].
  unfold clean_bytes.
  assert (Hex : exists x,
             (if is_slash c then clean_loop (length p') true p' [slash] 1
              else clean_loop (length (c :: p')) false (c :: p') [] 0)
             = x ++ last_segment (c :: p')).
  { destruct (is_slash c) eqn:Hs.
    - rewrite (last_segment_slash c p' Hs) in *.
      apply clean_loop_keeps_last; [lia | exact Hpl].
    - apply clean_loop_keeps_last; [lia | exact Hpl]. }
  destruct Hex as [x ->]. exists x.
  destruct (x ++ last_segment (c :: p')) eqn:Hx; [| reflexivity].
  apply app_eq_nil in Hx as [_ Hx]. rewrite Hx in Hpl. discriminate.
Qed.

Lemma last_app_last (ss : list (list ascii)) (e : list ascii) :
  ss <> [] -> List.last (app_last ss e) [] = List.last ss [] ++ e.
Proof.
  induction ss as [|s ss IH]; [contradiction |]. intros _.
  destruct ss as [|s' ss]; [reflexivity |].
  change (app_last (s :: s' :: ss) e) with (s :: app_last (s' :: ss) e).
  rewrite last_segments_cons.
  - rewrite IH by discriminate. reflexivity.
  - destruct ss; discriminate.
Qed.

Lemma length_app_last (ss : list (list ascii)) (e : list ascii) :
  ss <> [] -> length (app_last ss e) = length ss.
Proof.
  induction ss as [|s ss IH]; [contradiction |]. intros _.
  destruct ss as [|s' ss]; [reflexivity |].
  change (app_last (s :: s' :: ss) e) with (s :: app_last (s' :: ss) e).
  exact (f_equal S (IH ltac:(discriminate))).
Qed.

(** The last element of the path that [getThumbPath] joins ends in
    [.jpg], so it is plain. *)
Lemma last_segment_thumb (stem : string) :
  exists l,
    last_segment (list_ascii_of_string ("thumb/" +:+ stem +:+ ".jpg"))
    = l ++ list_ascii_of_string ".jpg".
Proof.
  rewrite (list_ascii_app "thumb/" (stem +:+ ".jpg")), list_ascii_app.
  rewrite app_assoc. unfold last_segment.
  rewrite segments_app_no_slash by reflexivity.
  rewrite last_app_last by apply segments_not_nil. eauto.
Qed.

End PathMore.

(** ** The thumbnail key, for all names *)

(** X1.  The name without its extension, followed by the extension, is
    the name: the slice taken by [getThumbPath] is in bounds and drops
    exactly what [path.Ext] returned. *)
Theorem nameWithoutExt_then_Ext (n : string) :
  nameWithoutExt n +:+ GoPath.Ext n = n.
Proof.
  apply list_ascii_of_string_inj. rewrite list_ascii_app.
  unfold GoPath.Ext at 1. rewrite list_ascii_of_string_of_list_ascii.
  symmetry. apply nameWithoutExt_bytes.
Qed.

(** X2.  Whatever the name, the key returned by [getThumbPath] ends in
    [.jpg]. *)
Theorem getThumbPath_ends_in_jpg (n : string) :
  GoStrings.HasSuffix (getThumbPath n) ".jpg" = true.
Proof.
  unfold getThumbPath. rewrite Join_thumb. unfold GoPath.Clean.
  destruct (last_segment_thumb (nameWithoutExt n)) as [l Hl].
  destruct (clean_bytes_keeps_last
              (list_ascii_of_string ("thumb/" +:+ nameWithoutExt n +:+ ".jpg")))
    as [x Hx].
  { rewrite Hl. apply plain_segment_jpg. }
  rewrite Hx, Hl, app_assoc, string_of_list_ascii_app.
  apply HasSuffix_app.
Qed.

(** ** The thumbnail key of plain names *)

(** On a plain name the key is the plain concatenation. *)
Lemma getThumbPath_of_plain (n : string) :
  plainName n = true ->
  getThumbPath n = "thumb/" +:+ nameWithoutExt n +:+ ".jpg".
Proof.
  intros Hpl. unfold getThumbPath.
  rewrite Join_thumb. apply Clean_plain, plainName_thumb, Hpl.
Qed.

(** The key of a plain name has one element more than the name. *)
Lemma getThumbPath_segments (n : string) :
  plainName n = true ->
  length (segments (list_ascii_of_string (getThumbPath n)))
  = S (length (segments (list_ascii_of_string n))).
Proof.
  intros Hpl. rewrite (getThumbPath_of_plain n Hpl).
  rewrite (list_ascii_app "thumb/" (nameWithoutExt n +:+ ".jpg")). simpl.
  pose proof (segments_not_nil
                (list_ascii_of_string (nameWithoutExt n +:+ ".jpg"))) as Hne.
  destruct (segments (list_ascii_of_string (nameWithoutExt n +:+ ".jpg")))
    as [|s0 ss] eqn:Hseg; [contradiction |].
  simpl. f_equal.
  change (S (length ss)) with (length (s0 :: ss)). rewrite <- Hseg.
  rewrite list_ascii_app, segments_app_no_slash by reflexivity.
  rewrite length_app_last by apply segments_not_nil.
  destruct (ext_bytes_spec (list_ascii_of_string n)) as [Hns _].
  transitivity (length (segments (list_ascii_of_string (nameWithoutExt n)
                                  ++ GoPath.ext_bytes (list_ascii_of_string n)))).
  - rewrite (segments_app_no_slash _ _ Hns).
    now rewrite length_app_last by apply segments_not_nil.
  - now rewrite <- nameWithoutExt_bytes.
Qed.

(** The key of a plain name is never the name itself. *)
Lemma getThumbPath_not_self (n : string) :
  plainName n = true -> getThumbPath n <> n.
Proof.
  intros Hpl Heq. pose proof (getThumbPath_segments n Hpl) as H.
  rewrite Heq in H. lia.
Qed.

(** X3.  The key of a plain name lies under [thumb/], so the index page
    never lists the object stored under it. *)
Theorem thumbnail_of_plain_name_not_listed (w : World) (objs : list ListedObject)
    (n : string) (f : FileEntry) :
  plainName n = true ->
  In f (indexFiles w objs) ->
  GoStrings.HasPrefix (getThumbPath n) "thumb/" = true /\ Name f <> getThumbPath n.
Proof.
  intros Hpl Hin.
  assert (Hpre : GoStrings.HasPrefix (getThumbPath n) "thumb/" = true).
  { rewrite (getThumbPath_of_plain n Hpl). apply HasPrefix_app. }
  split; [exact Hpre |]. intros Heq.
  destruct (indexFiles_entry w objs f Hin) as [Hf _].
  rewrite Heq, Hpre in Hf. discriminate.
Qed.

Lemma thumbnail_of_plain_name_not_listed_witness :
  GoStrings.HasPrefix (getThumbPath "a.jpg") "thumb/" = true
  /\ Name (indexEntry worldOk "a.jpg" someAttrs) <> getThumbPath "a.jpg".
Proof.
  apply (thumbnail_of_plain_name_not_listed worldOk bucket3 "a.jpg"
           (indexEntry worldOk "a.jpg" someAttrs)); [reflexivity |].
  simpl. left. reflexivity.
Defined.

(** X4.  Two plain names have the same key exactly when they agree once
    their extensions are removed: an image and a video of the same stem
    share one thumbnail object. *)
Theorem plain_names_share_key_iff_same_stem (n1 n2 : string) :
  plainName n1 = true ->
  plainName n2 = true ->
  (getThumbPath n1 = getThumbPath n2 <-> nameWithoutExt n1 = nameWithoutExt n2).
Proof.
  intros H1 H2.
  rewrite (getThumbPath_of_plain n1 H1), (getThumbPath_of_plain n2 H2). split.
  - intros H. simpl in H. injection H as H.
    change (nameWithoutExt n1 +:+ ".jpg" = nameWithoutExt n2 +:+ ".jpg") in H.
    now apply append_inv_tail in H.
  - now intros ->.
Qed.

Lemma plain_names_share_key_iff_same_stem_witness :
  getThumbPath "trip/a.png" = getThumbPath "trip/a.mp4"
  /\ getThumbPath "trip/a.png" = "thumb/trip/a.jpg".
Proof.
  split; [| reflexivity].
  apply (proj2 (plain_names_share_key_iff_same_stem "trip/a.png" "trip/a.mp4"
                  eq_refl eq_refl)).
  reflexivity.
Defined.

(** ** Content types *)

(** X6.  [detectContentType] never returns the empty string: when the
    MIME table has no entry, one of the five fixed types is returned. *)
Theorem detectContentType_not_empty (w : World) (name : string) :
  detectContentType w name <> "".
Proof.
  unfold detectContentType.
  destruct (String.eqb (mimeTypeByExtension w (filepathExt name)) "") eqn:Hct; simpl.
  - repeat match goal with
           | |- context [if ?b then _ else _] => destruct b
           end; discriminate.
  - now apply String.eqb_neq.
Qed.

(** ** Listing, object by object *)

(** X18.  The entries of a listing are computed object by object: the
    entries for two runs of objects, one after the other, are the entries
    of the first followed by those of the second. *)
Theorem indexFiles_app (w : World) (objs1 objs2 : list ListedObject) :
  indexFiles w (objs1 ++ objs2) = indexFiles w objs1 ++ indexFiles w objs2.
Proof.
  induction objs1 as [|o objs1 IH]; simpl; [reflexivity |].
  destruct (GoStrings.HasPrefix (objName o) "thumb/"); [exact IH |].
  destruct (objAttrs o); [now rewrite IH | exact IH].
Qed.

(** ** The object name of an upload *)

Lemma append_assoc (a b c : string) : (a +:+ b) +:+ c = a +:+ b +:+ c.
Proof.
  induction a as [|x a IH]; [reflexivity |].
  change (String x ((a +:+ b) +:+ c) = String x (a +:+ b +:+ c)). now rewrite IH.
Qed.

(** X17.  With a folder, and when the folder, a slash and the name make a
    plain path, the object is named exactly that; the name is the custom
    name when one is given and the name of the uploaded file otherwise. *)
Theorem objectPathOf_plain_join (filename fld custom : string) :
  fld <> "" ->
  plainName (fld +:+ "/" +:+ (if String.eqb custom "" then filename else custom)) = true ->
  objectPathOf filename fld custom
  = fld +:+ "/" +:+ (if String.eqb custom "" then filename else custom).
Proof.
  intros Hf Hpl. unfold objectPathOf.
  set (nm := if String.eqb custom "" then filename else custom) in *.
  apply String.eqb_neq in Hf. rewrite Hf. simpl negb. cbv iota.
  unfold GoPath.Join.
  destruct fld as [|c fld]; [discriminate |]. simpl.
  rewrite append_assoc. apply (Clean_plain (String c (fld +:+ "/" +:+ nm))), Hpl.
Qed.

Lemma objectPathOf_plain_join_witness :
  objectPathOf "q.jpg" "reports/2024" "cover.jpg" = "reports/2024/cover.jpg".
Proof.
  apply (objectPathOf_plain_join "q.jpg" "reports/2024" "cover.jpg");
    [discriminate | reflexivity].
Defined.

(** ** Video thumbnails: success and failure *)

(** X7.  [generateVideoThumbnail] returns a nil error exactly when the
    temporary file is created, the transcoder succeeds, the frame is read
    and either the frame does not decode or the encoder reports no error. *)
Theorem generateVideoThumbnail_ok_iff (w : World) (video : bytes) :
  snd (fst (generateVideoThumbnail w video)) = None
  <-> createTemp w "vid-thumb-*.jpg" = true
      /\ exists frame,
           ffmpeg w video = Some frame
           /\ readFile w = true
           /\ match Decode w frame with
              | None => True
              | Some img => snd (Encode w (Resize w img)) = None
              end.
Proof.
  unfold generateVideoThumbnail.
  destruct (createTemp w "vid-thumb-*.jpg"); simpl.
  2: { split; [discriminate | intros [[=] _]]. }
  destruct (ffmpeg w video) as [frame|]; simpl.
  2: { split; [discriminate | intros [_ (f & [=] & _)]]. }
  destruct (readFile w); simpl.
  2: { split; [discriminate | intros [_ (f & _ & [=] & _)]]. }
  destruct (Decode w frame) as [img|] eqn:Hd.
  - destruct (Encode w (Resize w img)) as [buf err] eqn:He. simpl. split.
    + intros ->. split; [reflexivity |]. exists frame. now rewrite Hd, He.
    + intros [_ (f & [= <-] & _ & H)]. rewrite Hd, He in H. exact H.
  - simpl. split; [| reflexivity]. intros _. split; [reflexivity |].
    exists frame. now rewrite Hd.
Qed.

(** ** The thumbnail handler: responses and the store *)

Section ThumbMore.
Variable w : World.

(** What the generation block can return early with. *)
Lemma thumbGenerate_early (name : string) (orig : bytes) (r : Response)
    (tr : list Event) :
  thumbGenerate w name orig = (inl r, tr) ->
  r = RespRedirect "/static/file-icon.png" 302 \/ r = RespError "decode failed" 500.
Proof.
  unfold thumbGenerate. destruct (hasSuffix w name videoExts).
  - destruct (generateVideoThumbnail w orig) as [[d [e|]] t]; intros [=]; auto.
  - destruct (Decode w orig); intros [=]; auto.
Qed.

(** The responses of the handler, case by case. *)
Lemma thumbHandler_cases (st : Store) (urlPath : string) :
  (thumbOriginalName urlPath = ""
   /\ resp (thumbHandler w st urlPath) = RespNotFound
   /\ store (thumbHandler w st urlPath) = st)
  \/ (thumbOriginalName urlPath <> ""
      /\ store (thumbHandler w st urlPath) = st
      /\ (resp (thumbHandler w st urlPath) = RespError "temp error" 500
          \/ resp (thumbHandler w st urlPath) = RespError "download failed" 500
          \/ resp (thumbHandler w st urlPath) = RespError "decode failed" 500
          \/ resp (thumbHandler w st urlPath) = RespRedirect "/static/file-icon.png" 302))
  \/ (thumbOriginalName urlPath <> ""
      /\ exists body,
           resp (thumbHandler w st urlPath) = RespBytes jpegHeader body
           /\ (store (thumbHandler w st urlPath) = st
               \/ (st !! getThumbPath (thumbOriginalName urlPath) = None
                   /\ put w (getThumbPath (thumbOriginalName urlPath)) = PutOk
                   /\ store (thumbHandler w st urlPath)
                      = <[getThumbPath (thumbOriginalName urlPath) := body]> st))).
Proof.
  unfold thumbHandler.
  destruct (String.eqb (thumbOriginalName urlPath) "") eqn:Hn.
  { left. apply String.eqb_eq in Hn. auto. }
  apply String.eqb_neq in Hn. right.
  destruct (st !! getThumbPath (thumbOriginalName urlPath)) as [cached|] eqn:Hk.
  { right. split; [exact Hn |]. exists cached. simpl. auto. }
  destruct (createTemp w _); simpl.
  2: { left. auto. }
  destruct (download w st _) as [orig|].
  2: { left. simpl. auto 6. }
  destruct (thumbGenerate w _ orig) as [[r | thumbData] tr] eqn:Hg.
  - left. simpl. split; [exact Hn | split; [reflexivity |]].
    destruct (thumbGenerate_early _ _ _ _ Hg) as [-> | ->]; auto 6.
  - right. split; [exact Hn |]. exists thumbData. unfold saveThumb.
    destruct (put w (getThumbPath (thumbOriginalName urlPath))) eqn:Hp; simpl; auto.
Qed.

End ThumbMore.

(** X8.  The thumbnail handler answers "not found" exactly for the empty
    name; an original that is missing from the store is not reported so. *)
Theorem thumbHandler_not_found_iff_empty_name (w : World) (st : Store)
    (urlPath : string) :
  resp (thumbHandler w st urlPath) = RespNotFound <-> thumbOriginalName urlPath = "".
Proof.
  destruct (thumbHandler_cases w st urlPath)
    as [(Hn & Hr & _) | [(Hn & _ & Hr) | (Hn & body & Hr & _)]].
  - split; auto.
  - split; [| contradiction].
    intros H. rewrite H in Hr.
    destruct Hr as [Hr | [Hr | [Hr | Hr]]]; discriminate.
  - split; [| contradiction]. intros H. rewrite H in Hr. discriminate.
Qed.

(** X9.  When neither the thumbnail nor the original is in the store, the
    handler answers with the server error [download failed] (500) and
    leaves the store as it is. *)
Theorem thumbHandler_missing_original (w : World) (st : Store) (urlPath : string) :
  thumbOriginalName urlPath <> "" ->
  st !! getThumbPath (thumbOriginalName urlPath) = None ->
  createTemp w ("orig-*" +:+ filepathExt (thumbOriginalName urlPath)) = true ->
  st !! thumbOriginalName urlPath = None ->
  resp (thumbHandler w st urlPath) = RespError "download failed" 500
  /\ store (thumbHandler w st urlPath) = st.
Proof.
  intros Hne Hmiss Htmp Horig. unfold thumbHandler.
  apply String.eqb_neq in Hne. rewrite Hne, Hmiss, Htmp. unfold download.
  rewrite Horig. destruct (copyToTemp w); split; reflexivity.
Qed.

Lemma thumbHandler_missing_original_witness :
  resp (thumbHandler worldOk storePhoto "/thumb/gone.png")
  = RespError "download failed" 500
  /\ store (thumbHandler worldOk storePhoto "/thumb/gone.png") = storePhoto.
Proof.
  apply (thumbHandler_missing_original worldOk storePhoto "/thumb/gone.png");
    solve [discriminate | reflexivity].
Defined.

(** X10.  The thumbnail handler changes the store at most at the key of
    the requested name, and not at all unless it answers with bytes. *)
Theorem thumbHandler_store_frame (w : World) (st : Store) (urlPath : string) :
  (forall k, k <> getThumbPath (thumbOriginalName urlPath) ->
     store (thumbHandler w st urlPath) !! k = st !! k)
  /\ ((forall h body, resp (thumbHandler w st urlPath) <> RespBytes h body) ->
      store (thumbHandler w st urlPath) = st).
Proof.
  destruct (thumbHandler_cases w st urlPath)
    as [(_ & _ & Hs) | [(_ & Hs & _) | (_ & body & Hr & Hs)]].
  - rewrite Hs. auto.
  - rewrite Hs. auto.
  - split.
    + intros k Hk. destruct Hs as [-> | (_ & _ & ->)]; [reflexivity |].
      now apply lookup_insert_ne.
    + intros H. now destruct (H _ _ Hr).
Qed.

(** X11.  On a miss answered with bytes, when the write takes effect the
    store afterwards is the store before with the served bytes under the
    key: what is served is what is cached. *)
Theorem thumbHandler_serves_what_it_caches (w : World) (st : Store)
    (urlPath : string) (h : list (string * string)) (body : bytes) :
  st !! getThumbPath (thumbOriginalName urlPath) = None ->
  put w (getThumbPath (thumbOriginalName urlPath)) = PutOk ->
  resp (thumbHandler w st urlPath) = RespBytes h body ->
  store (thumbHandler w st urlPath)
  = <[getThumbPath (thumbOriginalName urlPath) := body]> st.
Proof.
  intros Hmiss Hput Hresp.
  destruct (thumbHandler_bytes w st urlPath h body Hresp) as (_ & _ & Hst).
  destruct Hst as [[Hhit _] | ->]; [congruence |].
  unfold saveThumb. now rewrite Hput.
Qed.

Lemma thumbHandler_serves_what_it_caches_witness :
  store (thumbHandler worldOk storePhoto "/thumb/photos/x.png")
  = <["thumb/photos/x.jpg" := pngThumb]> storePhoto.
Proof.
  apply (thumbHandler_serves_what_it_caches worldOk storePhoto "/thumb/photos/x.png"
           jpegHeader pngThumb);
    reflexivity.
Defined.

(** ** The thumbnail handler and the codec *)

(** X12.  For a video whose extracted frame does not decode, the handler
    answers with the bytes of the frame as they are, under the JPEG
    header, and these are what it writes under the key. *)
Theorem thumbHandler_video_raw_frame (w : World) (st : Store) (urlPath : string)
    (orig frame : bytes) :
  thumbOriginalName urlPath <> "" ->
  st !! getThumbPath (thumbOriginalName urlPath) = None ->
  createTemp w ("orig-*" +:+ filepathExt (thumbOriginalName urlPath)) = true ->
  copyToTemp w = true ->
  st !! thumbOriginalName urlPath = Some orig ->
  hasSuffix w (thumbOriginalName urlPath) videoExts = true ->
  createTemp w "vid-thumb-*.jpg" = true ->
  ffmpeg w orig = Some frame ->
  readFile w = true ->
  Decode w frame = None ->
  resp (thumbHandler w st urlPath) = RespBytes jpegHeader frame
  /\ In (EvWrite (getThumbPath (thumbOriginalName urlPath)) frame)
        (trace (thumbHandler w st urlPath)).
Proof.
  intros Hne Hmiss Htmp Hcp Horig Hvid Hvt Hff Hrd Hdec.
  rewrite (thumbHandler_miss w st urlPath orig Hne Hmiss Htmp Hcp Horig).
  unfold thumbGenerate, generateVideoThumbnail.
  rewrite Hvid, Hvt, Hff, Hrd, Hdec. simpl. split; [reflexivity |].
  unfold saveThumb.
  destruct (put w (getThumbPath (thumbOriginalName urlPath))); simpl; auto 6.
Qed.

Lemma thumbHandler_video_raw_frame_witness :
  resp (thumbHandler worldRawFrame storeClip "/thumb/clips/y.mp4")
  = RespBytes jpegHeader junkBytes
  /\ In (EvWrite (getThumbPath (thumbOriginalName "/thumb/clips/y.mp4")) junkBytes)
        (trace (thumbHandler worldRawFrame storeClip "/thumb/clips/y.mp4")).
Proof.
  apply (thumbHandler_video_raw_frame worldRawFrame storeClip "/thumb/clips/y.mp4"
           junkBytes junkBytes);
    solve [discriminate | reflexivity].
Defined.

(** X13.  For a video whose frame decodes but whose encoding reports an
    error, the handler redirects to the placeholder icon and writes
    nothing. *)
Theorem thumbHandler_video_encode_error (w : World) (st : Store) (urlPath : string)
    (orig frame : bytes) (img : Image w) (e : error) :
  thumbOriginalName urlPath <> "" ->
  st !! getThumbPath (thumbOriginalName urlPath) = None ->
  createTemp w ("orig-*" +:+ filepathExt (thumbOriginalName urlPath)) = true ->
  copyToTemp w = true ->
  st !! thumbOriginalName urlPath = Some orig ->
  hasSuffix w (thumbOriginalName urlPath) videoExts = true ->
  createTemp w "vid-thumb-*.jpg" = true ->
  ffmpeg w orig = Some frame ->
  readFile w = true ->
  Decode w frame = Some img ->
  snd (Encode w (Resize w img)) = Some e ->
  resp (thumbHandler w st urlPath) = RespRedirect "/static/file-icon.png" 302
  /\ store (thumbHandler w st urlPath) = st.
Proof.
  intros Hne Hmiss Htmp Hcp Horig Hvid Hvt Hff Hrd Hdec Henc.
  rewrite (thumbHandler_miss w st urlPath orig Hne Hmiss Htmp Hcp Horig).
  unfold thumbGenerate, generateVideoThumbnail.
  rewrite Hvid, Hvt, Hff, Hrd, Hdec. simpl.
  destruct (Encode w (Resize w img)) as [buf err]. simpl in Henc. subst err.
  split; reflexivity.
Qed.

Lemma thumbHandler_video_encode_error_witness :
  resp (thumbHandler worldEncodeErr storeClip "/thumb/clips/y.mp4")
  = RespRedirect "/static/file-icon.png" 302
  /\ store (thumbHandler worldEncodeErr storeClip "/thumb/clips/y.mp4") = storeClip.
Proof.
  apply (thumbHandler_video_encode_error worldEncodeErr storeClip "/thumb/clips/y.mp4"
           junkBytes pngBytes pngBytes ErrEncode);
    solve [discriminate | reflexivity].
Defined.

(** X14.  For a name that is not video-classified and whose bytes decode,
    the handler answers with whatever the encoder left in its buffer,
    whether or not the encoder reported an error. *)
Theorem thumbHandler_image_encode_error_ignored (w : World) (st : Store)
    (urlPath : string) (orig : bytes) (img : Image w) :
  thumbOriginalName urlPath <> "" ->
  st !! getThumbPath (thumbOriginalName urlPath) = None ->
  createTemp w ("orig-*" +:+ filepathExt (thumbOriginalName urlPath)) = true ->
  copyToTemp w = true ->
  st !! thumbOriginalName urlPath = Some orig ->
  hasSuffix w (thumbOriginalName urlPath) videoExts = false ->
  Decode w orig = Some img ->
  resp (thumbHandler w st urlPath)
  = RespBytes jpegHeader (fst (Encode w (Resize w img))).
Proof.
  intros Hne Hmiss Htmp Hcp Horig Hvid Hdec.
  rewrite (thumbHandler_miss w st urlPath orig Hne Hmiss Htmp Hcp Horig).
  unfold thumbGenerate. rewrite Hvid, Hdec. reflexivity.
Qed.

Lemma thumbHandler_image_encode_error_ignored_witness :
  snd (Encode worldEncodeErr (Resize worldEncodeErr pngBytes)) = Some ErrEncode
  /\ resp (thumbHandler worldEncodeErr storePhoto "/thumb/photos/x.png")
     = RespBytes jpegHeader junkBytes.
Proof.
  split; [reflexivity |].
  apply (thumbHandler_image_encode_error_ignored worldEncodeErr storePhoto
           "/thumb/photos/x.png" pngBytes pngBytes);
    solve [discriminate | reflexivity].
Defined.

(** ** Upload: errors, the original, the first view *)

(** X15.  When the upload handler answers with an error, it is one of
    [read error] (400), [temp error], [copy error], [upload failed]
    (500), and the store is as before. *)
Theorem uploadHandler_error_keeps_store (w : World) (st : Store) (r : UploadRequest)
    (msg : string) (code : nat) :
  resp (uploadHandler w st r) = RespError msg code ->
  store (uploadHandler w st r) = st
  /\ In (msg, code)
        [("read error", 400); ("temp error", 500); ("copy error", 500);
         ("upload failed", 500)].
Proof.
  unfold uploadHandler.
  destruct (String.eqb (Method r) "GET"); [discriminate |].
  destruct (FormFile r) as [[filename content]|]; simpl.
  2: { intros [= <- <-]. auto. }
  destruct (createTemp w _); simpl.
  2: { intros [= <- <-]. auto. }
  destruct (copyToTemp w); simpl.
  2: { intros [= <- <-]. auto. }
  set (objectPath := objectPathOf filename (folder r) (custom_name r)).
  destruct (uploadGenerate w objectPath content) as [[thumbData shouldGen] tr1].
  destruct (put w objectPath); destruct shouldGen; simpl;
    solve [discriminate | intros [= <- <-]; auto 6].
Qed.

Lemma uploadHandler_error_keeps_store_witness :
  store (uploadHandler worldOk storePhoto uploadNoFile) = storePhoto
  /\ In ("read error", 400)
        [("read error", 400); ("temp error", 500); ("copy error", 500);
         ("upload failed", 500)].
Proof.
  apply (uploadHandler_error_keeps_store worldOk storePhoto uploadNoFile). reflexivity.
Defined.

(** The store after an upload that went through. *)
Lemma uploadHandler_store (w : World) (st : Store) (r : UploadRequest)
    (filename : string) (content : bytes) :
  Method r <> "GET" ->
  FormFile r = Some (filename, content) ->
  createTemp w ("upload-*"
                +:+ filepathExt (objectPathOf filename (folder r) (custom_name r))) = true ->
  copyToTemp w = true ->
  put w (objectPathOf filename (folder r) (custom_name r)) = PutOk ->
  store (uploadHandler w st r)
  = (if snd (fst (uploadGenerate w (objectPathOf filename (folder r) (custom_name r))
                    content))
     then match put w (getThumbPath (objectPathOf filename (folder r) (custom_name r))) with
          | PutOk =>
              <[getThumbPath (objectPathOf filename (folder r) (custom_name r))
                := fst (fst (uploadGenerate w
                               (objectPathOf filename (folder r) (custom_name r))
                               content))]>
                (<[objectPathOf filename (folder r) (custom_name r) := content]> st)
          | _ => <[objectPathOf filename (folder r) (custom_name r) := content]> st
          end
     else <[objectPathOf filename (folder r) (custom_name r) := content]> st).
Proof.
  intros Hm Hfile Htmp Hcp Hput.
  set (objectPath := objectPathOf filename (folder r) (custom_name r)) in *.
  unfold uploadHandler. apply String.eqb_neq in Hm.
  rewrite Hm, Hfile. fold objectPath. rewrite Htmp, Hcp, Hput. simpl.
  destruct (uploadGenerate w objectPath content) as [[thumbData shouldGen] tr1].
  destruct shouldGen; reflexivity.
Qed.

(** X5.  After an upload that went through under a plain object name, the
    store holds under that name exactly the uploaded bytes: the thumbnail
    is written elsewhere. *)
Theorem upload_keeps_original_bytes (w : World) (st : Store) (r : UploadRequest)
    (filename : string) (content : bytes) :
  Method r <> "GET" ->
  FormFile r = Some (filename, content) ->
  plainName (objectPathOf filename (folder r) (custom_name r)) = true ->
  createTemp w ("upload-*"
                +:+ filepathExt (objectPathOf filename (folder r) (custom_name r))) = true ->
  copyToTemp w = true ->
  put w (objectPathOf filename (folder r) (custom_name r)) = PutOk ->
  store (uploadHandler w st r) !! objectPathOf filename (folder r) (custom_name r)
  = Some content.
Proof.
  intros Hm Hfile Hpl Htmp Hcp Hput.
  rewrite (uploadHandler_store w st r filename content Hm Hfile Htmp Hcp Hput).
  pose proof (getThumbPath_not_self _ Hpl) as Hne.
  destruct (snd (fst (uploadGenerate w _ content)));
    [destruct (put w (getThumbPath _)) |];
    rewrite ?(lookup_insert_ne _ _ _ _ Hne); apply lookup_insert_eq.
Qed.

Lemma upload_keeps_original_bytes_witness :
  store (uploadHandler worldOk ∅ uploadReport) !! "reports/q.jpg" = Some pngBytes.
Proof.
  apply (upload_keeps_original_bytes worldOk ∅ uploadReport "q.jpg" pngBytes);
    solve [discriminate | reflexivity].
Defined.

(** X16.  After an upload that went through, generated a thumbnail and
    wrote it, a request for the thumbnail of the uploaded object is
    served from the store with the generated bytes, without any call to
    the codec or the transcoder. *)
Theorem upload_then_thumbnail_is_hit (w : World) (st : Store) (r : UploadRequest)
    (filename : string) (content thumbData : bytes) (tr : list Event) :
  Method r <> "GET" ->
  FormFile r = Some (filename, content) ->
  objectPathOf filename (folder r) (custom_name r) <> "" ->
  createTemp w ("upload-*"
                +:+ filepathExt (objectPathOf filename (folder r) (custom_name r))) = true ->
  copyToTemp w = true ->
  put w (objectPathOf filename (folder r) (custom_name r)) = PutOk ->
  uploadGenerate w (objectPathOf filename (folder r) (custom_name r)) content
  = (thumbData, true, tr) ->
  put w (getThumbPath (objectPathOf filename (folder r) (custom_name r))) = PutOk ->
  thumbHandler w (store (uploadHandler w st r))
    ("/thumb/" +:+ objectPathOf filename (folder r) (custom_name r))
  = {| resp := RespBytes jpegHeader thumbData;
       store := store (uploadHandler w st r);
       trace := [] |}.
Proof.
  intros Hm Hfile Hne Htmp Hcp Hput Hgen Hputk.
  apply thumbHandler_hit; unfold thumbOriginalName; rewrite TrimPrefix_app;
    [exact Hne |].
  rewrite (uploadHandler_store w st r filename content Hm Hfile Htmp Hcp Hput).
  rewrite Hgen, Hputk. simpl. apply lookup_insert_eq.
Qed.

Lemma upload_then_thumbnail_is_hit_witness :
  thumbHandler worldOk (store (uploadHandler worldOk ∅ uploadReport))
    ("/thumb/" +:+ objectPathOf "q.jpg" (folder uploadReport) (custom_name uploadReport))
  = {| resp := RespBytes jpegHeader pngThumb;
       store := store (uploadHandler worldOk ∅ uploadReport);
       trace := [] |}.
Proof.
  apply (upload_then_thumbnail_is_hit worldOk ∅ uploadReport "q.jpg" pngBytes pngThumb
           [EvDecode pngBytes]);
    solve [discriminate | reflexivity].
Defined.

(** ** Viewer and download *)

(** X19.  The viewer page marks a file as image or video exactly when the
    index page links it to the thumbnail handler; and for a name that is
    not in the store the page is still produced, with the size shown as
    [Unknown size]. *)
Theorem viewer_flags_match_index_link (w : World) (st : Store) (urlPath : string)
    (attrs : Attrs) :
  (IsImage (fst (viewerHandler w st urlPath))
   || IsVideo (fst (viewerHandler w st urlPath)) = true
   <-> ThumbURL (indexEntry w (FileName (fst (viewerHandler w st urlPath))) attrs)
       = "/thumb/" +:+ FileName (fst (viewerHandler w st urlPath)))
  /\ (st !! FileName (fst (viewerHandler w st urlPath)) = None ->
      FileSize (fst (viewerHandler w st urlPath)) = "Unknown size"
      /\ snd (viewerHandler w st urlPath) = [EvLog "Error getting attrs:"]).
Proof.
  unfold viewerHandler. simpl.
  set (name := GoStrings.TrimPrefix urlPath "/viewer/"). split.
  - rewrite <- hasSuffix_media.
    destruct (hasSuffix w name mediaExts); split; try reflexivity; discriminate.
  - intros ->. split; reflexivity.
Qed.

Section BaseFacts.
Import GoPath.

Lemma base_last_rev (f : list ascii) :
  forall rest acc, no_slash f = true ->
  base_last (rev f ++ rest) acc = base_last rest (f ++ acc).
Proof.
  induction f as [|x f IH]; intros rest acc Hf; [reflexivity |].
  simpl in Hf. apply andb_true_iff in Hf as [Hx Hf]. apply negb_true_iff in Hx.
  simpl rev. rewrite <- app_assoc. rewrite (IH _ _ Hf). simpl. now rewrite Hx.
Qed.

Lemma base_strip_rev (f rest : list ascii) :
  no_slash f = true -> f <> [] -> base_strip (rev f ++ rest) = rev f ++ rest.
Proof.
  intros Hf Hne.
  destruct (rev f) as [|c r] eqn:Hr.
  - apply (f_equal (@rev ascii)) in Hr. rewrite rev_involutive in Hr. contradiction.
  - assert (Hc : is_slash c = false).
    { assert (Hin : In c f) by (apply in_rev; rewrite Hr; left; reflexivity).
      unfold no_slash in Hf. rewrite forallb_forall in Hf.
      apply negb_true_iff, (Hf c Hin). }
    simpl. now rewrite Hc.
Qed.

(** [filepath.Base] of a directory, a slash and a slash-free name. *)
Lemma base_bytes_dir_file (d f : list ascii) :
  no_slash f = true -> f <> [] -> base_bytes (d ++ slash :: f) = f.
Proof.
  intros Hf Hne. unfold base_bytes.
  destruct (d ++ slash :: f) eqn:Hp; [now destruct d |]. rewrite <- Hp.
  rewrite rev_app_distr. simpl rev. rewrite <- app_assoc.
  rewrite (base_strip_rev f _ Hf Hne), (base_last_rev f _ _ Hf). simpl.
  rewrite app_nil_r. destruct f; [contradiction | reflexivity].
Qed.

End BaseFacts.

(** X20.  A download of the object [dir/file], where [file] is not empty
    and has no slash, is answered with the bytes of the object under the
    header [attachment; filename=file]: the directory is not part of the
    file name.  When the object is not in the store the body is empty. *)
Theorem download_names_last_element (st : Store) (dir file : string) :
  no_slash (list_ascii_of_string file) = true ->
  file <> "" ->
  downloadHandler st ("/download/" +:+ dir +:+ "/" +:+ file)
  = RespBytes [("Content-Disposition", "attachment; filename=" +:+ file)]
      (default [] (st !! (dir +:+ "/" +:+ file))).
Proof.
  intros Hf Hne. unfold downloadHandler. rewrite TrimPrefix_app.
  unfold filepathBase. rewrite list_ascii_app.
  change (list_ascii_of_string ("/" +:+ file))
    with (GoPath.slash :: list_ascii_of_string file).
  rewrite base_bytes_dir_file, string_of_list_ascii_of_string; [reflexivity | exact Hf |].
  intros H. apply Hne. apply list_ascii_of_string_inj. exact H.
Qed.

Lemma download_names_last_element_witness :
  downloadHandler storeTwo "/download/docs/readme.txt"
  = RespBytes [("Content-Disposition", "attachment; filename=readme.txt")] junkBytes.
Proof.
  apply (download_names_last_element storeTwo "docs" "readme.txt");
    [reflexivity | discriminate].
Defined.

Example filepathBase_cases :
  map filepathBase
    [""; "."; "/."; "/"; "////"; "x/"; "abc"; "abc/def"; "a/b/.x"; "a/b/c."; "a/b/c.x"]
  = ["."; "."; "."; "/"; "/"; "x"; "abc"; "def"; ".x"; "c."; "c.x"].
Proof. reflexivity. Qed.
